(** * TripleHorseDeer: a Brainfuck interpreter and its surface syntax

    Shallow embedding of [src/THD.py]: the token translator
    ([TripleHorseDeer._r2b], [TripleHorseDeer._b2r]), the bracket
    validator ([Brainfuck.__init__]) and the execution engine
    ([Brainfuck.run]), followed by the properties proved about them.

    Modelling conventions.
    - A Python [str] is a list of Unicode code points ([char], a [Z]).
    - The tape is a NumPy [uint8] array: a [list Z] of cells in [0, 256).
      Indexing follows NumPy: an index [i] with [-n <= i < 0] addresses
      cell [i + n]; anything outside [-n, n) raises [IndexError].
      The result of [mem[dp] += 1] and [mem[dp] -= 1] wraps modulo 256 with
      every NumPy.  The store of a Python integer ([ord(...)] or [-1])
      depends on the NumPy installed, which the repository does not pin:
      releases before 2.0 cast it to [uint8] (modulo 256), releases from
      2.0 on raise [OverflowError] when it is outside [0, 255].  The model
      takes the release line as a parameter ([numpy]).
    - [self.jumps] is a dictionary from positions to positions: a
      [gmap nat nat].
    - Exceptions are values of [error]; a computation that can raise
      returns a [result].
    - The [while] loop of [run] need not terminate: it is given both as an
      inductive big-step relation ([loop]) and as an executable function
      with fuel ([run_loop]); the two are proved to agree. *)

From Equations Require Import Equations.
From stdpp Require Import gmap list.

Local Open Scope Z_scope.

(** ** Characters, operators and errors *)

Abbreviation char := Z (only parsing).
Abbreviation text := (list Z) (only parsing).

Definition PLUS : char := 43.      (* '+' *)
Definition MINUS : char := 45.     (* '-' *)
Definition GT : char := 62.        (* '>' *)
Definition LT : char := 60.        (* '<' *)
Definition LBRACKET : char := 91.  (* '[' *)
Definition RBRACKET : char := 93.  (* ']' *)
Definition DOT : char := 46.       (* '.' *)
Definition COMMA : char := 44.     (* ',' *)

(** [Brainfuck.operators] *)
Definition operators : list char :=
  [PLUS; MINUS; GT; LT; LBRACKET; RBRACKET; DOT; COMMA].

(** [TripleHorseDeer.rep_operators], as code points. *)
Definition rep_operators : list text :=
  [ [12356; 12396; 12356]     (* inui  *)
  ; [12392; 12371]            (* toko  *)
  ; [12450; 12531]            (* an    *)
  ; [12459; 12488]            (* kato  *)
  ; [12373; 12435]            (* san   *)
  ; [12400; 12363]            (* baka  *)
  ; [12522; 12476]            (* rize  *)
  ; [12456; 12473; 12479] ].  (* esuta *)

Inductive error : Type :=
| UnmatchedNumber                 (* BrainfuckError('Unmatched number of brackets', 1) *)
| MaxInstrExceeded                (* BrainfuckError('Maximum nr of instructions exceeded', 2) *)
| UnmatchedBracket (pos : nat)    (* BrainfuckError('Unmatched bracket at pos %i', 4) *)
| RepConflict                     (* Exception raised by _r2b on conflicting tokens *)
| IndexError
| KeyError
| ValueError
| TypeError
| OSError
| OverflowError
| UnicodeDecodeError.

(** The [errnr] attribute of a [BrainfuckError]; other exceptions have none. *)
Definition errnr (e : error) : option nat :=
  match e with
  | UnmatchedNumber => Some 1%nat
  | MaxInstrExceeded => Some 2%nat
  | UnmatchedBracket _ => Some 4%nat
  | _ => None
  end.

Inductive result (A : Type) : Type :=
| Ok (a : A)
| Raise (e : error).
Arguments Ok {A} a.
Arguments Raise {A} e.

Definition bind {A B : Type} (r : result A) (k : A -> result B) : result B :=
  match r with
  | Ok a => k a
  | Raise e => Raise e
  end.

Notation "'do' x <- r ; k" := (bind r (fun x => k))
  (at level 10, x name, r at level 100, k at level 200).

(** [try: r except Exception: h] *)
Definition try_except {A : Type} (r h : result A) : result A :=
  match r with
  | Ok a => Ok a
  | Raise _ => h
  end.

(** [x in self.operators] *)
Definition is_operator (op : char) : bool := existsb (Z.eqb op) operators.

(** [l.index(x)] *)
Fixpoint index {A : Type} `{EqDecision A} (x : A) (l : list A) : result nat :=
  match l with
  | [] => Raise ValueError
  | y :: l' => if decide (y = x) then Ok 0%nat else do k <- index x l' ; Ok (S k)
  end.

(** [l[k]] for a list *)
Definition item {A : Type} (l : list A) (k : nat) : result A :=
  match l !! k with
  | Some a => Ok a
  | None => Raise IndexError
  end.

(** ** Token translator *)

(** [[i for i in reps if i[tc] == t]] *)
Fixpoint candidates (reps : list text) (tc : nat) (t : char) : result (list text) :=
  match reps with
  | [] => Ok []
  | i :: reps' =>
      do c <- item i tc ;
      do to <- candidates reps' tc t ;
      Ok (if c =? t then i :: to else to)
  end.

(** The loop of [_r2b].  [code] is the unread remainder of the stream;
    [code.seek(code.tell() + n)] drops [n] further characters. *)
Equations? r2b_loop (code : text) (tc : nat) (out : text) : result text
  by wf (length code) lt :=
r2b_loop [] tc out := Ok out;
r2b_loop (t :: rest) tc out with candidates rep_operators tc t := {
  | Raise e := Raise e
  | Ok [] := r2b_loop rest 0%nat out
  | Ok [tok] with (do k <- index tok rep_operators ; item operators k) := {
      | Raise e := Raise e
      | Ok op := r2b_loop (drop (length tok - tc - 1) rest) 0%nat (out ++ [op]) }
  | Ok to :=
      if existsb (fun i => (length i =? tc + 1)%nat) to then Raise RepConflict
      else r2b_loop rest (S tc) out }.
Proof.
  all: try (simpl; lia).
  rewrite length_drop. simpl. lia.
Qed.

Definition r2b (code : text) : result text := r2b_loop code 0%nat [].

(** [_b2r] *)
Fixpoint b2r_loop (code : text) (out : text) : result text :=
  match code with
  | [] => Ok out
  | t :: rest =>
      if is_operator t then
        do k <- index t operators ;
        do tok <- item rep_operators k ;
        b2r_loop rest (out ++ tok)
      else b2r_loop rest out
  end.

Definition b2r (code : text) : result text := b2r_loop code [].

(** ** Structural validator: [Brainfuck.__init__] *)

Record program : Type := mkProgram {
  code : text;               (* self.code *)
  jumps : gmap nat nat;      (* self.jumps *)
  c_len : nat                (* self.c_len *)
}.

(** [s.count(c)] for a one-character [c] *)
Fixpoint count (s : text) (c : char) : nat :=
  match s with
  | [] => 0%nat
  | x :: s' => if x =? c then S (count s' c) else count s' c
  end.

(** The stripping loop: [c = ''; for op in code: if op in operators: c += op] *)
Definition strip (s : text) : text :=
  fold_left (fun c op => if is_operator op then c ++ [op] else c) s [].

(** Forward scan [for ip in range(d_ip+1, c_len)]: [rest] is [code[ip:]]. *)
Fixpoint scan_fwd (rest : text) (heap : nat) (ip : nat) : option nat :=
  match rest with
  | [] => None
  | c :: rest' =>
      if c =? LBRACKET then scan_fwd rest' (S heap) (S ip)
      else if c =? RBRACKET then
        match heap with
        | O => Some ip
        | S h => scan_fwd rest' h (S ip)
        end
      else scan_fwd rest' heap (S ip)
  end.

(** Backward scan [for ip in range(d_ip-1, -1, -1)]: [before] is
    [code[:ip+1]] reversed, so its head is [code[ip]] and [ip] is the
    length of its tail. *)
Fixpoint scan_bwd (before : text) (heap : nat) : option nat :=
  match before with
  | [] => None
  | c :: before' =>
      if c =? RBRACKET then scan_bwd before' (S heap)
      else if c =? LBRACKET then
        match heap with
        | O => Some (length before')
        | S h => scan_bwd before' h
        end
      else scan_bwd before' heap
  end.

(** One round of the discovery loop's bracket branch: record the match
    when the scan found one, then test [d_ip not in self.jumps]. *)
Definition record_match (d_ip : nat) (found : option nat) (jumps : gmap nat nat)
  : result (gmap nat nat) :=
  let jumps' := match found with
                | Some ip => <[d_ip := ip]> jumps
                | None => jumps
                end in
  match jumps' !! d_ip with
  | None => Raise (UnmatchedBracket d_ip)
  | Some _ => Ok jumps'
  end.

(** [while d_ip < c_len: ...; d_ip += 1] with [n] iterations left. *)
Fixpoint find_jumps (code : text) (n : nat) (d_ip : nat) (jumps : gmap nat nat)
  : result (gmap nat nat) :=
  match n with
  | O => Ok jumps
  | S n' =>
      do instr <- item code d_ip ;
      do jumps' <- (if instr =? LBRACKET then
                   record_match d_ip (scan_fwd (drop (S d_ip) code) 0 (S d_ip)) jumps
                 else if instr =? RBRACKET then
                   record_match d_ip (scan_bwd (rev (take d_ip code)) 0) jumps
                 else Ok jumps) ;
      find_jumps code n' (S d_ip) jumps'
  end.

Definition Brainfuck_init (src : text) : result program :=
  if negb (count src LBRACKET =? count src RBRACKET)%nat then Raise UnmatchedNumber
  else
    let code := strip src in
    do jumps <- find_jumps code (length code) 0 ∅ ;
    Ok {| code := code; jumps := jumps; c_len := length code |}.

(** [TripleHorseDeer.__init__] *)
Definition TripleHorseDeer_init (src : text) : result program :=
  do code <- r2b src ;
  Brainfuck_init code.

(** ** Execution engine: [Brainfuck.run] *)

(** What [input.read(1)] can deliver: a character, or an exception.  The
    end of the list is the end of the input, where [read(1)] returns the
    empty string. *)
Inductive read_event : Type :=
| ReadChar (c : char)
| ReadFail.

(** The local variables of [run], together with the two streams. *)
Record state : Type := mkState {
  ip : nat;                     (* instruction pointer *)
  dp : Z;                       (* data pointer, an unbounded Python int *)
  mem : list Z;                 (* the uint8 array *)
  icnt : Z;                     (* instruction counter *)
  buf_out : list Z;             (* output buffer, a bytes object *)
  input : list read_event;      (* what is left of self.input *)
  output : list text            (* the strings written to self.output so far *)
}.

Definition set_ip (s : state) (v : nat) : state :=
  mkState v (dp s) (mem s) (icnt s) (buf_out s) (input s) (output s).
Definition set_dp (s : state) (v : Z) : state :=
  mkState (ip s) v (mem s) (icnt s) (buf_out s) (input s) (output s).
Definition set_mem (s : state) (v : list Z) : state :=
  mkState (ip s) (dp s) v (icnt s) (buf_out s) (input s) (output s).
Definition set_icnt (s : state) (v : Z) : state :=
  mkState (ip s) (dp s) (mem s) v (buf_out s) (input s) (output s).
Definition set_buf_out (s : state) (v : list Z) : state :=
  mkState (ip s) (dp s) (mem s) (icnt s) v (input s) (output s).
Definition set_input (s : state) (v : list read_event) : state :=
  mkState (ip s) (dp s) (mem s) (icnt s) (buf_out s) v (output s).
Definition set_output (s : state) (v : list text) : state :=
  mkState (ip s) (dp s) (mem s) (icnt s) (buf_out s) (input s) v.

(** NumPy's resolution of an integer index into an array of length [n]. *)
Definition np_index (n : nat) (i : Z) : option nat :=
  if (0 <=? i) && (i <? Z.of_nat n) then Some (Z.to_nat i)
  else if (- Z.of_nat n <=? i) && (i <? 0) then Some (Z.to_nat (i + Z.of_nat n))
  else None.

(** The NumPy release line in use: before 2.0, or 2.0 and later. *)
Inductive numpy : Type :=
| NumPy1
| NumPy2.

(** The cast of an integer to [uint8]. *)
Definition to_uint8 (v : Z) : Z := v mod 256.

(** [mem[i]] and [mem.item(i)] *)
Definition getitem (mem : list Z) (i : Z) : result Z :=
  match np_index (length mem) i with
  | Some k => item mem k
  | None => Raise IndexError
  end.

(** [mem[i] = v] for the value [v] of a [uint8] addition or subtraction:
    the stored value wraps. *)
Definition setitem (mem : list Z) (i : Z) (v : Z) : result (list Z) :=
  match np_index (length mem) i with
  | Some k => Ok (<[k := to_uint8 v]> mem)
  | None => Raise IndexError
  end.

(** [mem[i] = v] for a Python integer [v]: the index is resolved first;
    then NumPy before 2.0 casts [v], NumPy 2 refuses a [v] that is not a
    [uint8]. *)
Definition setitem_int (np : numpy) (mem : list Z) (i : Z) (v : Z)
  : result (list Z) :=
  match np_index (length mem) i with
  | Some k =>
      match np with
      | NumPy1 => Ok (<[k := to_uint8 v]> mem)
      | NumPy2 =>
          if (0 <=? v) && (v <=? 255) then Ok (<[k := v]> mem)
          else Raise OverflowError
      end
  | None => Raise IndexError
  end.

(** [ord(input.read(1))]: the code point read, or an exception (at the end
    of the input [ord('')] raises), and the rest of the stream. *)
Definition read_ord (inp : list read_event) : result Z * list read_event :=
  match inp with
  | [] => (Raise TypeError, [])
  | ReadChar c :: rest => (Ok c, rest)
  | ReadFail :: rest => (Raise OSError, rest)
  end.

(** The [if]/[elif] chain on [instr]. *)
Definition exec_instr (np : numpy) (p : program) (instr : char) (s : state)
  : result state :=
  if instr =? PLUS then
    do v <- getitem (mem s) (dp s) ;
    do m <- setitem (mem s) (dp s) (v + 1) ;
    Ok (set_mem s m)
  else if instr =? MINUS then
    do v <- getitem (mem s) (dp s) ;
    do m <- setitem (mem s) (dp s) (v - 1) ;
    Ok (set_mem s m)
  else if instr =? GT then Ok (set_dp s (dp s + 1))
  else if instr =? LT then Ok (set_dp s (dp s - 1))
  else if instr =? LBRACKET then
    do v <- getitem (mem s) (dp s) ;
    if v =? 0 then
      match jumps p !! ip s with
      | Some q => Ok (set_ip s q)
      | None => Raise KeyError
      end
    else Ok s
  else if instr =? RBRACKET then
    do v <- getitem (mem s) (dp s) ;
    if negb (v =? 0) then
      match jumps p !! ip s with
      | Some q => Ok (set_ip s q)
      | None => Raise KeyError
      end
    else Ok s
  else if instr =? DOT then
    do v <- getitem (mem s) (dp s) ;
    Ok (set_buf_out s (buf_out s ++ [v]))
  else if instr =? COMMA then
    let '(r, rest) := read_ord (input s) in
    let s' := set_input s rest in
    do m <- try_except (do c <- r ; setitem_int np (mem s) (dp s) c)
                       (setitem_int np (mem s) (dp s) (-1)) ;
    Ok (set_mem s' m)
  else Ok s.

(** The body of the [while] loop after the budget test. *)
Definition step (np : numpy) (p : program) (s : state) : result state :=
  do instr <- item (code p) (ip s) ;
  do s' <- exec_instr np p instr s ;
  Ok (set_icnt (set_ip s' (ip s' + 1)) (icnt s' + 1)).

(** The locals and streams at the moment the loop body raises: no
    assignment has been made yet, but [,] has already consumed its read. *)
Definition step_failed_state (p : program) (s : state) : state :=
  set_input s
    (match code p !! ip s with
     | Some instr => if instr =? COMMA then snd (read_ord (input s)) else input s
     | None => input s
     end).

(** [icnt > max_instr and max_instr >= 0] *)
Definition over_budget (max_instr : Z) (s : state) : bool :=
  (max_instr <? icnt s) && (0 <=? max_instr).

(** How the loop ends: it falls through with the final locals, or an
    exception leaves it from the state in which it was raised. *)
Inductive outcome : Type :=
| Halted (s : state)
| Raised (e : error) (s : state).

(** The [while ip < c_len] loop as a big-step relation. *)
Inductive loop (np : numpy) (p : program) (max_instr : Z)
  : state -> outcome -> Prop :=
| loop_exit s :
    (c_len p <= ip s)%nat ->
    loop np p max_instr s (Halted s)
| loop_budget s :
    (ip s < c_len p)%nat ->
    over_budget max_instr s = true ->
    loop np p max_instr s (Raised MaxInstrExceeded s)
| loop_raise s e :
    (ip s < c_len p)%nat ->
    over_budget max_instr s = false ->
    step np p s = Raise e ->
    loop np p max_instr s (Raised e (step_failed_state p s))
| loop_step s s' o :
    (ip s < c_len p)%nat ->
    over_budget max_instr s = false ->
    step np p s = Ok s' ->
    loop np p max_instr s' o ->
    loop np p max_instr s o.

(** The same loop as a function; [None] when the fuel runs out first. *)
Fixpoint run_loop (np : numpy) (fuel : nat) (p : program) (max_instr : Z)
    (s : state) : option outcome :=
  match fuel with
  | O => None
  | S fuel' =>
      if (ip s <? c_len p)%nat then
        if over_budget max_instr s then Some (Raised MaxInstrExceeded s)
        else match step np p s with
             | Raise e => Some (Raised e (step_failed_state p s))
             | Ok s' => run_loop np fuel' p max_instr s'
             end
      else Some (Halted s)
  end.

(** Strict UTF-8 decoding, [str(b, encoding='UTF-8')]: the well-formed
    byte sequences of the Unicode standard; anything else raises. *)
Definition in_range (lo hi b : Z) : bool := (lo <=? b) && (b <=? hi).

Fixpoint utf8_decode (bs : list Z) : option text :=
  match bs with
  | [] => Some []
  | b0 :: r0 =>
      if in_range 0 127 b0 then cons b0 <$> utf8_decode r0
      else if in_range 194 223 b0 then
        match r0 with
        | b1 :: r1 =>
            if in_range 128 191 b1
            then cons ((b0 - 192) * 64 + (b1 - 128)) <$> utf8_decode r1
            else None
        | _ => None
        end
      else if in_range 224 239 b0 then
        match r0 with
        | b1 :: b2 :: r2 =>
            if in_range (if b0 =? 224 then 160 else 128)
                        (if b0 =? 237 then 159 else 191) b1
               && in_range 128 191 b2
            then cons ((b0 - 224) * 4096 + (b1 - 128) * 64 + (b2 - 128))
                   <$> utf8_decode r2
            else None
        | _ => None
        end
      else if in_range 240 244 b0 then
        match r0 with
        | b1 :: b2 :: b3 :: r3 =>
            if in_range (if b0 =? 240 then 144 else 128)
                        (if b0 =? 244 then 143 else 191) b1
               && in_range 128 191 b2 && in_range 128 191 b3
            then cons ((b0 - 240) * 262144 + (b1 - 128) * 4096
                       + (b2 - 128) * 64 + (b3 - 128))
                   <$> utf8_decode r3
            else None
        | _ => None
        end
      else None
  end.

(** The end of [run]: [output.write(str(buf_out, encoding='UTF-8'))]. *)
Definition flush (s : state) : outcome :=
  match utf8_decode (buf_out s) with
  | Some t => Halted (set_output s (output s ++ [t]))
  | None => Raised UnicodeDecodeError s
  end.

(** The locals at the start of [run]. *)
Definition init_state (mem_size : nat) (inp : list read_event) (out : list text)
  : state :=
  mkState 0 0 (replicate mem_size 0) 0 [] inp out.

(** [run] as a relation: the loop, then the flush. *)
Inductive run (np : numpy) (p : program) (mem_size : nat) (max_instr : Z)
    (inp : list read_event) (out : list text) : outcome -> Prop :=
| run_done s :
    loop np p max_instr (init_state mem_size inp out) (Halted s) ->
    run np p mem_size max_instr inp out (flush s)
| run_raised e s :
    loop np p max_instr (init_state mem_size inp out) (Raised e s) ->
    run np p mem_size max_instr inp out (Raised e s).

(** [run] as a function with fuel. *)
Definition run_fuel (np : numpy) (fuel : nat) (p : program) (mem_size : nat)
    (max_instr : Z) (inp : list read_event) (out : list text) : option outcome :=
  match run_loop np fuel p max_instr (init_state mem_size inp out) with
  | Some (Halted s) => Some (flush s)
  | Some (Raised e s) => Some (Raised e s)
  | None => None
  end.

(** What [run] returns when [self.return_output] holds:
    [output.seek(0); output.read()]. *)
Definition returned (s : state) : text := concat (output s).


(** The same for a Brainfuck source text. *)
Inductive interp_bf (np : numpy) (src : text) (mem_size : nat) (max_instr : Z)
    (inp : list read_event) (out : list text) : outcome + error -> Prop :=
| interp_bf_bad e :
    Brainfuck_init src = Raise e ->
    interp_bf np src mem_size max_instr inp out (inr e)
| interp_bf_run p o :
    Brainfuck_init src = Ok p ->
    run np p mem_size max_instr inp out o ->
    interp_bf np src mem_size max_instr inp out (inl o).

(** ** Notions used to state the properties *)

Definition is_bracket (c : char) : bool := (c =? LBRACKET) || (c =? RBRACKET).

(** The scan the validator runs for position [i] of [code]. *)
Definition partner (code : text) (i : nat) : option nat :=
  match code !! i with
  | Some c =>
      if c =? LBRACKET then scan_fwd (drop (S i) code) 0 (S i)
      else if c =? RBRACKET then scan_bwd (rev (take i code)) 0
      else None
  | None => None
  end.

(** Proper nesting: reading left to right from depth [depth], no closing
    bracket arrives at depth 0 and the text ends at depth 0. *)
Fixpoint nested (depth : nat) (s : text) : bool :=
  match s with
  | [] => Nat.eqb depth 0
  | c :: s' =>
      if c =? LBRACKET then nested (S depth) s'
      else if c =? RBRACKET then
        match depth with
        | O => false
        | S d => nested d s'
        end
      else nested depth s'
  end.

Definition nests_properly (s : text) : Prop := nested 0 s = true.

(** The heap of the forward scan after it has passed over [m] without
    finding its match; [None] when the match lies inside [m]. *)
Fixpoint fwd_heap (heap : nat) (m : text) : option nat :=
  match m with
  | [] => Some heap
  | c :: m' =>
      if c =? LBRACKET then fwd_heap (S heap) m'
      else if c =? RBRACKET then
        match heap with
        | O => None
        | S h => fwd_heap h m'
        end
      else fwd_heap heap m'
  end.

(** The same for the backward scan, [m] in scanning order. *)
Fixpoint bwd_heap (heap : nat) (m : text) : option nat :=
  match m with
  | [] => Some heap
  | c :: m' =>
      if c =? RBRACKET then bwd_heap (S heap) m'
      else if c =? LBRACKET then
        match heap with
        | O => None
        | S h => bwd_heap h m'
        end
      else bwd_heap heap m'
  end.

(** [n] executions of the loop body, without the budget test. *)
Fixpoint steps (np : numpy) (n : nat) (p : program) (s : state)
  : result state :=
  match n with
  | O => Ok s
  | S n' => do s' <- step np p s ; steps np n' p s'
  end.

(** The surface token of an operator: the substitution [_b2r] performs. *)
Definition token_of (c : char) : text :=
  match (do k <- index c operators ; item rep_operators k) with
  | Ok tok => tok
  | Raise _ => []
  end.


(** The two situations in which the jump table is consulted: a loop opens
    on a zero cell, or closes on a non-zero cell. *)
Definition jumps_at (p : program) (s : state) : bool :=
  match code p !! ip s, getitem (mem s) (dp s) with
  | Some c, Ok v => ((c =? LBRACKET) && (v =? 0)) || ((c =? RBRACKET) && negb (v =? 0))
  | _, _ => false
  end.


(** The operators that read or write the cell under the data pointer. *)
Definition accesses_cell (c : char) : bool :=
  existsb (Z.eqb c) [PLUS; MINUS; LBRACKET; RBRACKET; DOT; COMMA].




(** The locals an outcome carries. *)
Definition final (o : outcome) : state :=
  match o with
  | Halted s => s
  | Raised _ s => s
  end.


(** [t] is the first character of one of the surface tokens. *)
Definition is_token_head (t : char) : bool :=
  existsb (fun tok => match tok with
                      | h :: _ => h =? t
                      | [] => false
                      end) rep_operators.

(** The operator and the number of further characters of the token that
    starts with [t], looked up in two parallel tables. *)
Fixpoint head_lookup (reps : list text) (ops : list char) (t : char)
  : option (char * nat) :=
  match reps, ops with
  | (h :: tl) :: reps', op :: ops' =>
      if h =? t then Some (op, length tl) else head_lookup reps' ops' t
  | _, _ => None
  end.

(** A list of values of type [uint8]. *)
Definition bytes (l : list Z) : Prop := Forall (fun v => 0 <= v < 256) l.


(** Case analysis following the [if]/[elif] chains. *)

Ltac case_char c :=
  destruct (Z.eqb_spec c LBRACKET) as [->|?];
  [|destruct (Z.eqb_spec c RBRACKET) as [->|?]].

Ltac case_instr c :=
  destruct (Z.eqb_spec c PLUS) as [->|?];
  [|destruct (Z.eqb_spec c MINUS) as [->|?];
  [|destruct (Z.eqb_spec c GT) as [->|?];
  [|destruct (Z.eqb_spec c LT) as [->|?];
  [|destruct (Z.eqb_spec c LBRACKET) as [->|?];
  [|destruct (Z.eqb_spec c RBRACKET) as [->|?];
  [|destruct (Z.eqb_spec c DOT) as [->|?];
  [|destruct (Z.eqb_spec c COMMA) as [->|?]]]]]]]].

Ltac exec_cases c :=
  unfold exec_instr; case_instr c; simpl;
  repeat match goal with
    | |- context [getitem ?m ?d] =>
        let v := fresh "v" in let Hg := fresh "Hget" in
        destruct (getitem m d) as [v|] eqn:Hg; simpl
    | |- context [read_ord ?i] =>
        let r := fresh "r" in let Hr := fresh "Hread" in
        destruct (read_ord i) as [[r|] ?] eqn:Hr; simpl
    | |- context [setitem ?m ?d ?v] =>
        let m' := fresh "m" in let Hs := fresh "Hset" in
        destruct (setitem m d v) as [m'|] eqn:Hs; simpl
    | |- context [setitem_int ?n ?m ?d ?v] =>
        let m' := fresh "m" in let Hs := fresh "Hset" in
        destruct (setitem_int n m d v) as [m'|] eqn:Hs; simpl
    | |- context [jumps ?p !! ?i] =>
        let q := fresh "q" in let Hj := fresh "Hjump" in
        destruct (jumps p !! i) as [q|] eqn:Hj; simpl
    | |- context [?v =? 0] =>
        destruct (Z.eqb_spec v 0); simpl
    end;
  try discriminate.

(** * Properties *)

(** ** Stripping and counting *)

Lemma strip_acc (s acc : text) :
  fold_left (fun c op => if is_operator op then c ++ [op] else c) s acc
  = acc ++ List.filter is_operator s.
Proof.
  revert acc. induction s as [|x s IH]; intros acc; simpl.
  - by rewrite app_nil_r.
  - destruct (is_operator x); rewrite IH; [|done].
    by rewrite <- app_assoc.
Qed.

Lemma strip_filter (s : text) : strip s = List.filter is_operator s.
Proof. unfold strip. by rewrite strip_acc. Qed.

Lemma strip_cons (x : char) (s : text) :
  strip (x :: s) = if is_operator x then x :: strip s else strip s.
Proof. rewrite !strip_filter. reflexivity. Qed.

Lemma is_bracket_operator (c : char) : is_bracket c = true -> is_operator c = true.
Proof.
  unfold is_bracket. case_char c; try discriminate; reflexivity.
Qed.

Lemma count_strip (s : text) (c : char) :
  is_operator c = true -> count (strip s) c = count s c.
Proof.
  intros Hc. induction s as [|x s IH]; [done|].
  rewrite strip_cons. simpl.
  destruct (Z.eqb_spec x c) as [->|Hne].
  - rewrite Hc. simpl. rewrite Z.eqb_refl. by rewrite IH.
  - destruct (is_operator x); simpl; [|done].
    destruct (Z.eqb_spec x c); [done|]. done.
Qed.

Lemma nested_strip (d : nat) (s : text) : nested d (strip s) = nested d s.
Proof.
  revert d. induction s as [|x s IH]; intros d; [done|].
  rewrite strip_cons. simpl.
  case_char x; simpl; try rewrite IH; try done.
  - destruct d; [done|apply IH].
  - destruct (is_operator x); simpl; [|apply IH].
    destruct (Z.eqb_spec x LBRACKET); [done|].
    destruct (Z.eqb_spec x RBRACKET); [done|]. apply IH.
Qed.

Lemma strip_all_operators (s : text) :
  Forall (fun c => is_operator c = true) (strip s).
Proof.
  rewrite strip_filter. apply Forall_forall. intros c Hc.
  apply list_elem_of_In, filter_In in Hc. tauto.
Qed.

Lemma strip_id (s : text) :
  Forall (fun c => is_operator c = true) s -> strip s = s.
Proof.
  induction 1 as [|x s Hx _ IH]; [done|].
  rewrite strip_cons, Hx. by rewrite IH.
Qed.

(** ** Heaps of the two scans *)

Lemma fwd_heap_app (k : nat) (x y : text) :
  fwd_heap k (x ++ y) = fwd_heap k x ≫= fun k' => fwd_heap k' y.
Proof.
  revert k. induction x as [|c x IH]; intros k; [done|]. simpl.
  case_char c; simpl; try apply IH.
  destruct k; [done|apply IH].
Qed.

Lemma bwd_heap_app (k : nat) (x y : text) :
  bwd_heap k (x ++ y) = bwd_heap k x ≫= fun k' => bwd_heap k' y.
Proof.
  revert k. induction x as [|c x IH]; intros k; [done|]. simpl.
  case_char c; simpl; try apply IH.
  destruct k; [done|apply IH].
Qed.

(** What the forward scan climbs over, the backward scan climbs back. *)
Lemma fwd_bwd_heap (m : text) (a b : nat) :
  fwd_heap a m = Some b -> bwd_heap b (rev m) = Some a.
Proof.
  revert a. induction m as [|c m IH]; intros a H; simpl in *.
  - by inversion H.
  - rewrite bwd_heap_app. revert H. case_char c; simpl.
    + intros H. rewrite (IH _ H). done.
    + destruct a as [|a]; [done|]. intros H. rewrite (IH _ H). done.
    + intros H. rewrite (IH _ H). simpl.
      destruct (Z.eqb_spec c RBRACKET); [done|].
      destruct (Z.eqb_spec c LBRACKET); done.
Qed.

Lemma bwd_fwd_heap (m : text) (a b : nat) :
  bwd_heap a m = Some b -> fwd_heap b (rev m) = Some a.
Proof.
  revert a. induction m as [|c m IH]; intros a H; simpl in *.
  - by inversion H.
  - rewrite fwd_heap_app. revert H. case_char c; simpl.
    + destruct a as [|a]; [done|]. intros H. rewrite (IH _ H). done.
    + intros H. rewrite (IH _ H). done.
    + destruct (Z.eqb_spec c RBRACKET); [done|].
      intros H. rewrite (IH _ H). simpl.
      destruct (Z.eqb_spec c LBRACKET); [done|].
      destruct (Z.eqb_spec c RBRACKET); done.
Qed.

Lemma scan_fwd_app (m rest : text) (k k' i : nat) :
  fwd_heap k m = Some k' ->
  scan_fwd (m ++ rest) k i = scan_fwd rest k' (i + length m)%nat.
Proof.
  revert k i. induction m as [|c m IH]; intros k i H; simpl in *.
  - inversion H. by rewrite Nat.add_0_r.
  - replace (i + S (length m))%nat with (S i + length m)%nat by lia.
    revert H. case_char c; simpl; try apply IH.
    destruct k; [done|apply IH].
Qed.

Lemma scan_fwd_Some (rest : text) (k i q : nat) :
  scan_fwd rest k i = Some q ->
  exists m rest', rest = m ++ RBRACKET :: rest'
                  /\ fwd_heap k m = Some 0%nat /\ q = (i + length m)%nat.
Proof.
  revert k i. induction rest as [|c rest IH]; intros k i H; [done|].
  simpl in H. revert H. case_char c; simpl.
  - intros H. destruct (IH _ _ H) as (m & r & -> & Hm & ->).
    exists (LBRACKET :: m), r. simpl. repeat split; [done|lia].
  - destruct k as [|k].
    + intros [= <-]. exists [], rest. simpl. repeat split. lia.
    + intros H. destruct (IH _ _ H) as (m & r & -> & Hm & ->).
      exists (RBRACKET :: m), r. simpl. repeat split; [done|lia].
  - intros H. destruct (IH _ _ H) as (m & r & -> & Hm & ->).
    exists (c :: m), r. simpl.
    destruct (Z.eqb_spec c LBRACKET); [done|].
    destruct (Z.eqb_spec c RBRACKET); [done|].
    repeat split; [done|lia].
Qed.

Lemma scan_bwd_app (m rest : text) (k k' : nat) :
  bwd_heap k m = Some k' ->
  scan_bwd (m ++ rest) k = scan_bwd rest k'.
Proof.
  revert k. induction m as [|c m IH]; intros k H; simpl in *.
  - by inversion H.
  - revert H. case_char c; simpl; try apply IH.
    destruct k; [done|apply IH].
Qed.

Lemma scan_bwd_Some (before : text) (k q : nat) :
  scan_bwd before k = Some q ->
  exists m rest', before = m ++ LBRACKET :: rest'
                  /\ bwd_heap k m = Some 0%nat /\ q = length rest'.
Proof.
  revert k. induction before as [|c before IH]; intros k H; [done|].
  simpl in H. revert H. case_char c; simpl.
  - destruct k as [|k].
    + intros [= <-]. by exists [], before.
    + intros H. destruct (IH _ H) as (m & r & -> & Hm & ->).
      by exists (LBRACKET :: m), r.
  - intros H. destruct (IH _ H) as (m & r & -> & Hm & ->).
    by exists (RBRACKET :: m), r.
  - destruct (Z.eqb_spec c RBRACKET); [done|].
    intros H. destruct (IH _ H) as (m & r & -> & Hm & ->).
    exists (c :: m), r. simpl.
    destruct (Z.eqb_spec c RBRACKET); [done|].
    destruct (Z.eqb_spec c LBRACKET); done.
Qed.

(** ** The two scans find each other *)

Lemma split_at (code : text) (i : nat) (c : char) :
  code !! i = Some c ->
  code = take i code ++ c :: drop (S i) code /\ length (take i code) = i.
Proof.
  intros H. split.
  - symmetry. by apply take_drop_middle.
  - apply length_take_le. apply lookup_lt_Some in H. lia.
Qed.

Lemma partner_of_open (pre suf : text) (q : nat) :
  scan_fwd suf 0 (S (length pre)) = Some q ->
  (pre ++ LBRACKET :: suf) !! q = Some RBRACKET
  /\ scan_bwd (rev (take q (pre ++ LBRACKET :: suf))) 0 = Some (length pre).
Proof.
  intros H. apply scan_fwd_Some in H as (m & rest & -> & Hm & ->).
  assert (Hq : (S (length pre) + length m)%nat = length (pre ++ LBRACKET :: m)).
  { rewrite length_app. simpl. lia. }
  replace (pre ++ LBRACKET :: m ++ RBRACKET :: rest)
    with ((pre ++ LBRACKET :: m) ++ RBRACKET :: rest)
    by (by rewrite <- app_assoc).
  rewrite Hq. split.
  - by apply list_lookup_middle.
  - rewrite take_app_length. rewrite rev_app_distr. simpl.
    rewrite <- app_assoc. simpl.
    rewrite (scan_bwd_app _ _ 0 0 (fwd_bwd_heap _ _ _ Hm)). simpl.
    by rewrite length_rev.
Qed.

Lemma partner_of_close (pre suf : text) (i : nat) :
  scan_bwd (rev pre) 0 = Some i ->
  (pre ++ RBRACKET :: suf) !! i = Some LBRACKET
  /\ scan_fwd (drop (S i) (pre ++ RBRACKET :: suf)) 0 (S i) = Some (length pre).
Proof.
  intros H. apply scan_bwd_Some in H as (m & rest & Hpre & Hm & ->).
  assert (Hp : pre = rev rest ++ LBRACKET :: rev m).
  { rewrite <- (rev_involutive pre), Hpre, rev_app_distr. simpl.
    by rewrite <- app_assoc. }
  subst pre. rewrite <- app_assoc. simpl.
  rewrite <- (length_rev rest). split.
  - by apply list_lookup_middle.
  - replace (rev rest ++ LBRACKET :: rev m ++ RBRACKET :: suf)
      with ((rev rest ++ [LBRACKET]) ++ rev m ++ RBRACKET :: suf)
      by (by rewrite <- app_assoc).
    replace (S (length (rev rest))) with (length (rev rest ++ [LBRACKET]))
      by (rewrite length_app; simpl; lia).
    rewrite drop_app_length.
    rewrite (scan_fwd_app _ _ 0 0 _ (bwd_fwd_heap _ _ _ Hm)). simpl.
    f_equal. rewrite !length_app. simpl. lia.
Qed.

Lemma partner_is_bracket (code : text) (i j : nat) :
  partner code i = Some j ->
  exists c, code !! i = Some c /\ is_bracket c = true.
Proof.
  unfold partner, is_bracket. destruct (code !! i) as [c|]; [|done].
  intros H. exists c. split; [done|]. revert H.
  case_char c; simpl; done.
Qed.

Lemma partner_symmetric (code : text) (i j : nat) :
  partner code i = Some j -> partner code j = Some i.
Proof.
  unfold partner at 1. destruct (code !! i) as [c|] eqn:Hi; [|done].
  destruct (split_at _ _ _ Hi) as [Hcode Hlen].
  case_char c; simpl; [| |done]; intros H.
  - rewrite <- Hlen in H at 2.
    destruct (partner_of_open _ _ _ H) as [Hj Hb].
    rewrite <- Hcode in Hj, Hb. unfold partner. rewrite Hj. simpl.
    by rewrite Hb, Hlen.
  - destruct (partner_of_close _ (drop (S i) code) _ H) as [Hj Hf].
    rewrite <- Hcode in Hj, Hf. unfold partner. rewrite Hj. simpl.
    by rewrite Hf, Hlen.
Qed.

(** ** Nesting and the existence of partners *)

Lemma nested_heap (d : nat) (s : text) :
  nested d s = true <-> fwd_heap d s = Some 0%nat.
Proof.
  revert d. induction s as [|c s IH]; intros d; simpl.
  - destruct d; simpl; split; intros H; done.
  - case_char c; simpl; try apply IH.
    destruct d; [done|apply IH].
Qed.

Lemma fwd_heap_count (s : text) (a b : nat) :
  fwd_heap a s = Some b ->
  (a + count s LBRACKET = b + count s RBRACKET)%nat.
Proof.
  revert a. induction s as [|c s IH]; intros a; simpl.
  - intros [= ->]. lia.
  - case_char c; simpl.
    + intros H%IH. lia.
    + destruct a; [done|]. intros H%IH. lia.
    + apply IH.
Qed.

Lemma fwd_heap_None (s : text) (a : nat) :
  fwd_heap a s = None ->
  exists pre suf, s = pre ++ RBRACKET :: suf /\ fwd_heap a pre = Some 0%nat.
Proof.
  revert a. induction s as [|c s IH]; intros a; simpl; [done|].
  case_char c; simpl.
  - intros (pre & suf & -> & H)%IH. by exists (LBRACKET :: pre), suf.
  - destruct a as [|a].
    + intros _. by exists [], s.
    + intros (pre & suf & -> & H)%IH. by exists (RBRACKET :: pre), suf.
  - intros (pre & suf & -> & H)%IH. exists (c :: pre), suf. simpl.
    destruct (Z.eqb_spec c LBRACKET); [done|].
    destruct (Z.eqb_spec c RBRACKET); done.
Qed.

Lemma open_has_partner (suf : text) (d k i : nat) :
  fwd_heap d suf = Some 0%nat -> (k < d)%nat -> is_Some (scan_fwd suf k i).
Proof.
  revert d k i. induction suf as [|c suf IH]; intros d k i; simpl.
  - intros [= ->]. lia.
  - case_char c; simpl.
    + intros H Hk. apply (IH (S d)); [done|lia].
    + destruct d as [|d]; [done|]. intros H Hk.
      destruct k as [|k]; [done|]. apply (IH d); [done|lia].
    + apply IH.
Qed.

Lemma fwd_heap_snoc (pre : text) (c : char) (a d : nat) :
  fwd_heap a (pre ++ [c]) = Some d ->
  exists d', fwd_heap a pre = Some d' /\ fwd_heap d' [c] = Some d.
Proof.
  rewrite fwd_heap_app. destruct (fwd_heap a pre) as [d'|]; [|done].
  simpl. intros H. by exists d'.
Qed.

Lemma close_has_partner (pre : text) (d k : nat) :
  fwd_heap 0 pre = Some d -> (k < d)%nat -> is_Some (scan_bwd (rev pre) k).
Proof.
  revert d k. induction pre as [|c pre IH] using rev_ind; intros d k.
  - simpl. intros [= <-]. lia.
  - intros (d' & Hpre & Hc)%fwd_heap_snoc Hk.
    rewrite rev_app_distr. simpl in *. revert Hc. case_char c; simpl.
    + intros [= <-]. destruct k as [|k]; [done|]. apply (IH d'); [done|lia].
    + destruct d' as [|d']; [done|]. intros [= <-].
      apply (IH (S d')); [done|lia].
    + destruct (Z.eqb_spec c RBRACKET); [done|].
      intros [= <-]. by apply (IH d').
Qed.

Lemma close_has_no_partner (pre : text) (d k : nat) :
  fwd_heap 0 pre = Some d -> (d <= k)%nat -> scan_bwd (rev pre) k = None.
Proof.
  revert d k. induction pre as [|c pre IH] using rev_ind; intros d k.
  - done.
  - intros (d' & Hpre & Hc)%fwd_heap_snoc Hk.
    rewrite rev_app_distr. simpl in *. revert Hc. case_char c; simpl.
    + intros [= <-]. destruct k as [|k]; [lia|]. apply (IH d'); [done|lia].
    + destruct d' as [|d']; [done|]. intros [= <-].
      apply (IH (S d')); [done|lia].
    + destruct (Z.eqb_spec c RBRACKET); [done|].
      intros [= <-]. by apply (IH d').
Qed.

Lemma nested_has_partner (code : text) (i : nat) (c : char) :
  nested 0 code = true ->
  code !! i = Some c -> is_bracket c = true ->
  is_Some (partner code i).
Proof.
  intros Hn Hi Hc. destruct (split_at _ _ _ Hi) as [Hcode Hlen].
  apply nested_heap in Hn. rewrite Hcode, fwd_heap_app in Hn.
  destruct (fwd_heap 0 (take i code)) as [d|] eqn:Hpre; [|done].
  unfold partner. rewrite Hi. simpl in Hn. revert Hc Hn. unfold is_bracket.
  case_char c; simpl; [| |done]; intros _ Hn.
  - apply (open_has_partner _ (S d)); [done|lia].
  - destruct d as [|d]; [done|].
    apply (close_has_partner _ (S d)); [done|lia].
Qed.

Lemma crossing_has_orphan (code : text) :
  count code LBRACKET = count code RBRACKET ->
  nested 0 code = false ->
  exists i, code !! i = Some RBRACKET /\ partner code i = None.
Proof.
  intros Hcount Hn.
  destruct (fwd_heap 0 code) as [d|] eqn:Hh.
  - apply fwd_heap_count in Hh as Hc. assert (d = 0%nat) as -> by lia.
    apply nested_heap in Hh. congruence.
  - apply fwd_heap_None in Hh as (pre & suf & -> & Hpre).
    exists (length pre).
    assert (Hi : (pre ++ RBRACKET :: suf) !! length pre = Some RBRACKET)
      by by apply list_lookup_middle.
    split; [done|]. unfold partner. rewrite Hi. simpl.
    rewrite take_app_length. by apply (close_has_no_partner _ 0).
Qed.

(** ** The discovery loop *)

Lemma record_match_fresh (d : nat) (found : option nat) (j : gmap nat nat) :
  j !! d = None ->
  record_match d found j
  = match found with
    | Some q => Ok (<[d := q]> j)
    | None => Raise (UnmatchedBracket d)
    end.
Proof.
  intros Hd. unfold record_match. destruct found as [q|].
  - by rewrite lookup_insert_eq.
  - by rewrite Hd.
Qed.

Lemma find_jumps_S (code : text) (n d : nat) (j : gmap nat nat) (c : char) :
  code !! d = Some c -> j !! d = None ->
  find_jumps code (S n) d j
  = if is_bracket c then
      match partner code d with
      | Some q => find_jumps code n (S d) (<[d := q]> j)
      | None => Raise (UnmatchedBracket d)
      end
    else find_jumps code n (S d) j.
Proof.
  intros Hc Hd. simpl. unfold item, partner, is_bracket. rewrite Hc. simpl.
  case_char c; simpl.
  - rewrite record_match_fresh by done.
    by destruct (scan_fwd _ _ _).
  - rewrite record_match_fresh by done.
    by destruct (scan_bwd _ _).
  - destruct (Z.eqb_spec c LBRACKET); [done|].
    by destruct (Z.eqb_spec c RBRACKET).
Qed.

Lemma partner_not_bracket (code : text) (i : nat) (c : char) :
  code !! i = Some c -> is_bracket c = false -> partner code i = None.
Proof.
  intros Hi Hc. destruct (partner code i) as [j|] eqn:Hp; [|done].
  apply partner_is_bracket in Hp as (c' & Hi' & Hc'). congruence.
Qed.

Lemma find_jumps_Ok (code : text) (n d : nat) (j j' : gmap nat nat) :
  (forall i, (d <= i)%nat -> j !! i = None) ->
  find_jumps code n d j = Ok j' ->
  forall i, j' !! i = if decide (d <= i < d + n)%nat then partner code i else j !! i.
Proof.
  revert d j. induction n as [|n IH]; intros d j Hfresh H i.
  - simpl in H. inversion H. case_decide; [lia|done].
  - destruct (code !! d) as [c|] eqn:Hc;
      [|simpl in H; unfold item in H; by rewrite Hc in H].
    rewrite (find_jumps_S _ _ _ _ c) in H by auto.
    destruct (is_bracket c) eqn:Hb.
    + destruct (partner code d) as [q|] eqn:Hq; [|done].
      rewrite (IH (S d) (<[d := q]> j));
        [|intros k Hk; rewrite lookup_insert_ne by lia; apply Hfresh; lia|exact H].
      repeat case_decide; try lia; try done.
      * assert (i = d) as -> by lia. by rewrite lookup_insert_eq.
      * rewrite lookup_insert_ne by lia. done.
    + rewrite (IH (S d) j); [|intros k Hk; apply Hfresh; lia|exact H].
      repeat case_decide; try lia; try done.
      assert (i = d) as -> by lia.
      rewrite (partner_not_bracket _ _ _ Hc Hb). apply Hfresh. lia.
Qed.

Lemma find_jumps_Raise (code : text) (n d : nat) (j : gmap nat nat) (e : error) :
  (forall i, (d <= i)%nat -> j !! i = None) ->
  (d + n <= length code)%nat ->
  find_jumps code n d j = Raise e ->
  exists i c, e = UnmatchedBracket i /\ (d <= i < d + n)%nat
              /\ code !! i = Some c /\ is_bracket c = true
              /\ partner code i = None.
Proof.
  revert d j. induction n as [|n IH]; intros d j Hfresh Hlen H; [done|].
  assert (Hd : (d < length code)%nat) by lia.
  destruct (lookup_lt_is_Some_2 code d Hd) as [c Hc].
  rewrite (find_jumps_S _ _ _ _ c) in H by auto.
  destruct (is_bracket c) eqn:Hb.
  - destruct (partner code d) as [q|] eqn:Hq.
    + apply IH in H as (i & c' & ? & ? & ?); [|intros; rewrite lookup_insert_ne by lia; apply Hfresh; lia|lia].
      exists i, c'. split; [done|]. split; [lia|done].
    + inversion H. exists d, c. repeat split; try done; lia.
  - apply IH in H as (i & c' & ? & ? & ?); [|intros; apply Hfresh; lia|lia].
    exists i, c'. split; [done|]. split; [lia|done].
Qed.

(** A successful construction stores the stripped text and, for every
    position, exactly what that position's scan found. *)
Lemma Brainfuck_init_Ok (src : text) (p : program) :
  Brainfuck_init src = Ok p ->
  code p = strip src /\ c_len p = length (strip src)
  /\ count src LBRACKET = count src RBRACKET
  /\ forall i, jumps p !! i = partner (strip src) i.
Proof.
  unfold Brainfuck_init.
  destruct (Nat.eqb_spec (count src LBRACKET) (count src RBRACKET)) as [Hc|];
    [simpl|done].
  destruct (find_jumps _ _ _ _) as [j|] eqn:Hj; [|done].
  simpl. intros [= <-]. simpl. repeat split; [done|]. intros i.
  rewrite (find_jumps_Ok _ _ _ _ _ (fun k _ => lookup_empty k) Hj).
  case_decide; [done|]. rewrite lookup_empty.
  unfold partner. rewrite lookup_ge_None_2 by lia. done.
Qed.

Lemma find_jumps_Ok_matched (code : text) (n d : nat) (j j' : gmap nat nat) :
  (forall i, (d <= i)%nat -> j !! i = None) ->
  find_jumps code n d j = Ok j' ->
  forall i c, (d <= i < d + n)%nat ->
              code !! i = Some c -> is_bracket c = true ->
              is_Some (partner code i).
Proof.
  revert d j. induction n as [|n IH]; intros d j Hfresh H i c Hi Hc Hb; [lia|].
  destruct (code !! d) as [c'|] eqn:Hd;
    [|simpl in H; unfold item in H; by rewrite Hd in H].
  rewrite (find_jumps_S _ _ _ _ c') in H by auto.
  destruct (decide (i = d)) as [->|Hne].
  - assert (c' = c) as -> by congruence. rewrite Hb in H.
    by destruct (partner code d).
  - destruct (is_bracket c').
    + destruct (partner code d) as [q|]; [|done].
      apply (IH (S d) (<[d := q]> j)) with (c := c); try done; try lia.
      intros k Hk. rewrite lookup_insert_ne by lia. apply Hfresh. lia.
    + apply (IH (S d) j) with (c := c); try done; try lia.
      intros k Hk. apply Hfresh. lia.
Qed.

(** ** Validator *)

(** C5: for every text whose brackets nest properly, construction
    succeeds, and in the jump table it builds every bracket position [i]
    has an entry [j] with [jumps[j] = i] (so [jumps[jumps[i]] = i]), and
    only bracket positions have entries. *)
Theorem jump_table_symmetric (src : text) :
  nests_properly src ->
  exists p, Brainfuck_init src = Ok p
    /\ code p = strip src
    /\ (forall i c, code p !! i = Some c -> is_bracket c = true ->
          exists j, jumps p !! i = Some j /\ jumps p !! j = Some i)
    /\ (forall i, is_Some (jumps p !! i) ->
          exists c, code p !! i = Some c /\ is_bracket c = true).
Proof.
  intros Hn. unfold nests_properly in Hn.
  assert (Hcount : count src LBRACKET = count src RBRACKET).
  { apply nested_heap, fwd_heap_count in Hn. lia. }
  assert (Hns : nested 0 (strip src) = true) by by rewrite nested_strip.
  destruct (Brainfuck_init src) as [p|e] eqn:Hinit.
  - destruct (Brainfuck_init_Ok _ _ Hinit) as (Hcode & _ & _ & Hj).
    exists p. split; [done|]. split; [done|]. rewrite Hcode. split.
    + intros i c Hi Hb.
      destruct (nested_has_partner _ _ _ Hns Hi Hb) as [j Hp].
      exists j. rewrite !Hj. split; [done|]. by apply partner_symmetric.
    + intros i [j Hi]. rewrite Hj in Hi. by apply partner_is_bracket in Hi.
  - exfalso. unfold Brainfuck_init in Hinit.
    rewrite Hcount, Nat.eqb_refl in Hinit. simpl in Hinit.
    destruct (find_jumps _ _ _ _) as [j|e'] eqn:Hf; [done|].
    apply find_jumps_Raise in Hf as (i & c & _ & _ & Hi & Hb & Hp);
      [|intros; apply lookup_empty|simpl; lia].
    destruct (nested_has_partner _ _ _ Hns Hi Hb) as [q Hq]. congruence.
Qed.

Lemma jump_table_symmetric_witness :
  exists p, Brainfuck_init [PLUS; LBRACKET; LBRACKET; MINUS; RBRACKET; 120; RBRACKET] = Ok p
    /\ code p = strip [PLUS; LBRACKET; LBRACKET; MINUS; RBRACKET; 120; RBRACKET]
    /\ (forall i c, code p !! i = Some c -> is_bracket c = true ->
          exists j, jumps p !! i = Some j /\ jumps p !! j = Some i)
    /\ (forall i, is_Some (jumps p !! i) ->
          exists c, code p !! i = Some c /\ is_bracket c = true).
Proof.
  apply (jump_table_symmetric [PLUS; LBRACKET; LBRACKET; MINUS; RBRACKET; 120; RBRACKET]).
  reflexivity.
Defined.

(** C7: a text whose bracket counts are equal but whose brackets do not
    nest properly is rejected at construction with the syntax error
    ([errnr] 4) that names the position, in the stripped text, of a bracket
    for which the scan found no partner. *)
Theorem crossing_brackets_rejected (src : text) :
  count src LBRACKET = count src RBRACKET ->
  ~ nests_properly src ->
  exists i c, Brainfuck_init src = Raise (UnmatchedBracket i)
    /\ errnr (UnmatchedBracket i) = Some 4%nat
    /\ strip src !! i = Some c /\ is_bracket c = true
    /\ partner (strip src) i = None.
Proof.
  intros Hcount Hn. unfold nests_properly in Hn.
  apply not_true_is_false in Hn.
  unfold Brainfuck_init. rewrite Hcount, Nat.eqb_refl. simpl.
  destruct (find_jumps _ _ _ _) as [j|e] eqn:Hf.
  - exfalso.
    destruct (crossing_has_orphan (strip src)) as (i & Hi & Hp).
    { rewrite !count_strip by reflexivity. done. }
    { by rewrite nested_strip. }
    destruct (find_jumps_Ok_matched _ _ _ _ _ (fun k _ => lookup_empty k) Hf
                i RBRACKET) as [q Hq]; [|done|done|congruence].
    apply lookup_lt_Some in Hi. lia.
  - apply find_jumps_Raise in Hf as (i & c & -> & _ & Hi & Hb & Hp);
      [|intros; apply lookup_empty|simpl; lia].
    exists i, c. by repeat split.
Qed.

Lemma crossing_brackets_rejected_witness :
  exists i c, Brainfuck_init [RBRACKET; LBRACKET] = Raise (UnmatchedBracket i)
    /\ errnr (UnmatchedBracket i) = Some 4%nat
    /\ strip [RBRACKET; LBRACKET] !! i = Some c /\ is_bracket c = true
    /\ partner (strip [RBRACKET; LBRACKET]) i = None.
Proof.
  apply (crossing_brackets_rejected [RBRACKET; LBRACKET]).
  - reflexivity.
  - unfold nests_properly. simpl. discriminate.
Defined.

(** ** Translator *)

Lemma is_operator_cases (c : char) :
  is_operator c = true ->
  c = PLUS \/ c = MINUS \/ c = GT \/ c = LT
  \/ c = LBRACKET \/ c = RBRACKET \/ c = DOT \/ c = COMMA.
Proof.
  unfold is_operator. simpl.
  repeat match goal with
         | |- context [c =? ?d] => destruct (Z.eqb_spec c d); [tauto|]
         end.
  done.
Qed.

Lemma r2b_loop_token (c : char) (rest out : text) :
  is_operator c = true ->
  r2b_loop (token_of c ++ rest) 0 out = r2b_loop rest 0 (out ++ [c]).
Proof.
  intros Hc.
  destruct (is_operator_cases c Hc) as [->|[->|[->|[->|[->|[->|[->| ->]]]]]]];
    cbn [token_of]; simpl app; rewrite r2b_loop_equation_2; simpl;
    by rewrite drop_0.
Qed.

Lemma b2r_loop_spec (src out : text) :
  b2r_loop src out = Ok (out ++ concat (map token_of (strip src))).
Proof.
  revert out. induction src as [|t src IH]; intros out.
  - simpl. by rewrite app_nil_r.
  - simpl. rewrite strip_cons. destruct (is_operator t) eqn:Ht; [|apply IH].
    simpl. rewrite app_assoc, <- IH.
    by destruct (is_operator_cases t Ht) as [->|[->|[->|[->|[->|[->|[->| ->]]]]]]].
Qed.

Lemma r2b_loop_surface (ops out : text) :
  Forall (fun c => is_operator c = true) ops ->
  r2b_loop (concat (map token_of ops)) 0 out = Ok (out ++ ops).
Proof.
  intros H. revert out. induction H as [|c ops Hc _ IH]; intros out; simpl.
  - rewrite r2b_loop_equation_1. by rewrite app_nil_r.
  - rewrite r2b_loop_token by done. rewrite IH. by rewrite <- app_assoc.
Qed.

(** Translating any text to the surface syntax and back gives the text
    without its noise characters. *)
Lemma r2b_b2r_strip (src : text) :
  exists surface, b2r src = Ok surface /\ r2b surface = Ok (strip src).
Proof.
  exists (concat (map token_of (strip src))). split.
  - unfold b2r. by rewrite b2r_loop_spec.
  - unfold r2b. by rewrite r2b_loop_surface by apply strip_all_operators.
Qed.

(** C6: a sequence of canonical operators translated to the surface
    syntax by [_b2r] and back by [_r2b] is the sequence itself. *)
Theorem r2b_b2r_roundtrip (ops : text) :
  Forall (fun c => is_operator c = true) ops ->
  exists surface, b2r ops = Ok surface /\ r2b surface = Ok ops.
Proof.
  intros H. destruct (r2b_b2r_strip ops) as (surface & Hb & Hr).
  exists surface. split; [done|]. by rewrite Hr, strip_id.
Qed.

Lemma r2b_b2r_roundtrip_witness :
  exists surface,
    b2r [PLUS; LBRACKET; MINUS; GT; COMMA; DOT; LT; RBRACKET] = Ok surface
    /\ r2b surface = Ok [PLUS; LBRACKET; MINUS; GT; COMMA; DOT; LT; RBRACKET].
Proof.
  apply (r2b_b2r_roundtrip [PLUS; LBRACKET; MINUS; GT; COMMA; DOT; LT; RBRACKET]).
  repeat constructor.
Defined.

(** ** Engine *)

Lemma bind_Ok {A B} (r : result A) (k : A -> result B) (b : B) :
  bind r k = Ok b -> exists a, r = Ok a /\ k a = Ok b.
Proof. destruct r as [a|]; [|done]. intros H. by exists a. Qed.

Lemma step_Ok {np : numpy} (p : program) (s s' : state) :
  step np p s = Ok s' ->
  exists c s1, code p !! ip s = Some c /\ exec_instr np p c s = Ok s1
     /\ s' = set_icnt (set_ip s1 (ip s1 + 1)) (icnt s1 + 1).
Proof.
  unfold step, item. destruct (code p !! ip s) as [c|]; [|done]. simpl.
  intros (s1 & H1 & [= <-])%bind_Ok. by exists c, s1.
Qed.


Lemma exec_instr_ip {np : numpy} (p : program) (c : char) (s s1 : state) :
  code p !! ip s = Some c ->
  exec_instr np p c s = Ok s1 ->
  if jumps_at p s then exists q, jumps p !! ip s = Some q /\ ip s1 = q
  else ip s1 = ip s.
Proof.
  intros Hc. unfold jumps_at. rewrite Hc. exec_cases c.
  all: intros [= <-]; simpl; eauto.
Qed.

Lemma step_icnt {np : numpy} (p : program) (s s' : state) :
  step np p s = Ok s' -> icnt s' = icnt s + 1.
Proof.
  intros (c & s1 & _ & Hex & ->)%step_Ok. simpl.
  revert Hex. exec_cases c; by intros [= <-].
Qed.

Lemma exec_instr_output {np : numpy} (p : program) (c : char) (s s1 : state) :
  exec_instr np p c s = Ok s1 ->
  output s1 = output s
  /\ (buf_out s1 = buf_out s
      \/ exists v, c = DOT /\ getitem (mem s) (dp s) = Ok v
                   /\ buf_out s1 = buf_out s ++ [v]).
Proof.
  exec_cases c.
  all: intros [= <-]; simpl; split; [done|]; try (by left).
  right. by exists v.
Qed.

Lemma setitem_Ok (m m' : list Z) (d v : Z) :
  setitem m d v = Ok m' ->
  exists k, np_index (length m) d = Some k /\ m' = <[k := v mod 256]> m.
Proof.
  unfold setitem. destruct (np_index _ _) as [k|]; [|done].
  intros [= <-]. by exists k.
Qed.

Lemma setitem_int_Ok (np : numpy) (m m' : list Z) (d v : Z) :
  setitem_int np m d v = Ok m' ->
  exists k, np_index (length m) d = Some k /\ m' = <[k := v mod 256]> m.
Proof.
  unfold setitem_int. destruct (np_index _ _) as [k|]; [|done].
  destruct np.
  - intros [= <-]. by exists k.
  - destruct (Z.leb_spec 0 v), (Z.leb_spec v 255); simpl; try done.
    intros [= <-]. exists k. by rewrite Z.mod_small by lia.
Qed.

Lemma np_index_lt (n : nat) (d : Z) (k : nat) :
  np_index n d = Some k -> (k < n)%nat.
Proof.
  unfold np_index.
  destruct (Z.leb_spec 0 d), (Z.ltb_spec d (Z.of_nat n)); simpl;
    try (intros [= <-]; lia).
  all: destruct (Z.leb_spec (- Z.of_nat n) d), (Z.ltb_spec d 0); simpl;
    try (intros [= <-]; lia); try done.
Qed.

Lemma exec_instr_mem {np : numpy} (p : program) (c : char) (s s1 : state) :
  exec_instr np p c s = Ok s1 ->
  length (mem s1) = length (mem s)
  /\ forall k, np_index (length (mem s)) (dp s) <> Some k ->
               mem s1 !! k = mem s !! k.
Proof.
  exec_cases c.
  all: intros [= <-]; simpl; try done.
  all: repeat match goal with
         | H : setitem _ _ _ = Ok _ |- _ =>
             apply setitem_Ok in H as (? & ? & ->)
         | H : setitem_int _ _ _ _ = Ok _ |- _ =>
             apply setitem_int_Ok in H as (? & ? & ->)
         end.
  all: rewrite length_insert; split; [done|];
    intros k Hk; apply list_lookup_insert_ne; congruence.
Qed.

Lemma np_index_Some (n : nat) (d : Z) (k : nat) :
  np_index n d = Some k ->
  (k < n)%nat /\ Z.of_nat k = if 0 <=? d then d else d + Z.of_nat n.
Proof.
  unfold np_index.
  destruct (Z.leb_spec 0 d), (Z.ltb_spec d (Z.of_nat n)); simpl;
    try (intros [= <-]; lia).
  all: destruct (Z.leb_spec (- Z.of_nat n) d), (Z.ltb_spec d 0); simpl;
    try (intros [= <-]; lia); try done.
Qed.

Lemma np_index_nonneg (n : nat) (d : Z) :
  0 <= d < Z.of_nat n -> np_index n d = Some (Z.to_nat d).
Proof.
  intros H. unfold np_index.
  destruct (Z.leb_spec 0 d), (Z.ltb_spec d (Z.of_nat n)); simpl; try lia. done.
Qed.

Lemma np_index_negative (n : nat) (d : Z) :
  - Z.of_nat n <= d < 0 -> np_index n d = Some (Z.to_nat (d + Z.of_nat n)).
Proof.
  intros H. unfold np_index.
  destruct (Z.leb_spec 0 d), (Z.ltb_spec d (Z.of_nat n)); simpl; try lia.
  destruct (Z.leb_spec (- Z.of_nat n) d), (Z.ltb_spec d 0); simpl; try lia. done.
Qed.

Lemma np_index_outside (n : nat) (d : Z) :
  d < - Z.of_nat n \/ Z.of_nat n <= d -> np_index n d = None.
Proof.
  intros H. unfold np_index.
  destruct (Z.leb_spec 0 d), (Z.ltb_spec d (Z.of_nat n)); simpl; try lia.
  all: destruct (Z.leb_spec (- Z.of_nat n) d), (Z.ltb_spec d 0); simpl; try lia.
  all: done.
Qed.

Lemma getitem_at (m : list Z) (d : Z) (k : nat) (v : Z) :
  np_index (length m) d = Some k -> m !! k = Some v -> getitem m d = Ok v.
Proof. intros Hk Hv. unfold getitem, item. by rewrite Hk, Hv. Qed.

Lemma setitem_at (m : list Z) (d : Z) (k : nat) (v : Z) :
  np_index (length m) d = Some k -> setitem m d v = Ok (<[k := v mod 256]> m).
Proof. intros Hk. unfold setitem. by rewrite Hk. Qed.

Lemma getitem_outside (m : list Z) (d : Z) :
  np_index (length m) d = None -> getitem m d = Raise IndexError.
Proof. intros Hk. unfold getitem. by rewrite Hk. Qed.

Lemma setitem_outside (m : list Z) (d v : Z) :
  np_index (length m) d = None -> setitem m d v = Raise IndexError.
Proof. intros Hk. unfold setitem. by rewrite Hk. Qed.

Lemma step_at {np : numpy} (p : program) (s : state) (c : char) :
  code p !! ip s = Some c ->
  step np p s = do s' <- exec_instr np p c s ;
             Ok (set_icnt (set_ip s' (ip s' + 1)) (icnt s' + 1)).
Proof. intros Hc. unfold step, item. by rewrite Hc. Qed.

Lemma step_plus {np : numpy} (p : program) (s : state) (k : nat) (v : Z) :
  code p !! ip s = Some PLUS ->
  np_index (length (mem s)) (dp s) = Some k -> mem s !! k = Some v ->
  step np p s = Ok (mkState (S (ip s)) (dp s) (<[k := (v + 1) mod 256]> (mem s))
                   (icnt s + 1) (buf_out s) (input s) (output s)).
Proof.
  intros Hc Hk Hv. rewrite (step_at _ _ _ Hc). unfold exec_instr. simpl.
  rewrite (getitem_at _ _ _ _ Hk Hv). simpl.
  rewrite (setitem_at _ _ _ _ Hk). simpl. unfold set_icnt, set_ip. simpl.
  by rewrite Nat.add_1_r.
Qed.

Lemma step_minus {np : numpy} (p : program) (s : state) (k : nat) (v : Z) :
  code p !! ip s = Some MINUS ->
  np_index (length (mem s)) (dp s) = Some k -> mem s !! k = Some v ->
  step np p s = Ok (mkState (S (ip s)) (dp s) (<[k := (v - 1) mod 256]> (mem s))
                   (icnt s + 1) (buf_out s) (input s) (output s)).
Proof.
  intros Hc Hk Hv. rewrite (step_at _ _ _ Hc). unfold exec_instr. simpl.
  rewrite (getitem_at _ _ _ _ Hk Hv). simpl.
  rewrite (setitem_at _ _ _ _ Hk). simpl. unfold set_icnt, set_ip. simpl.
  by rewrite Nat.add_1_r.
Qed.

Lemma step_raise_outside {np : numpy} (p : program) (s : state) (c : char) :
  code p !! ip s = Some c -> accesses_cell c = true ->
  np_index (length (mem s)) (dp s) = None ->
  step np p s = Raise IndexError.
Proof.
  intros Hc Ha Hk. rewrite (step_at _ _ _ Hc). revert Ha.
  unfold exec_instr, accesses_cell, getitem, setitem, setitem_int.
  rewrite Hk. simpl.
  case_instr c; simpl; try discriminate; intros _; try done.
  by destruct (read_ord (input s)) as [[r|e] rest].
Qed.

(** *** Instruction pointer *)

(** C2, as the code has it: a step that consults the jump table (a loop
    opening on a zero cell, or closing on a non-zero cell) leaves the
    instruction pointer one past the partner position, because the
    assignment [ip = jumps[ip]] is followed by the same [ip += 1] as every
    other step; every other step leaves it at [ip + 1].  Each step adds one
    to the instruction counter. *)
Theorem step_instruction_pointer {np : numpy} (p : program) (s s' : state) :
  step np p s = Ok s' ->
  (if jumps_at p s
   then exists q, jumps p !! ip s = Some q /\ ip s' = S q
   else ip s' = S (ip s))
  /\ icnt s' = icnt s + 1.
Proof.
  intros Hs. split; [|by eapply step_icnt].
  apply step_Ok in Hs as (c & s1 & Hc & Hex & ->). simpl.
  pose proof (exec_instr_ip _ _ _ _ Hc Hex) as H.
  destruct (jumps_at p s).
  - destruct H as (q & Hq & ->). exists q. split; [done|lia].
  - rewrite H. lia.
Qed.

Lemma step_instruction_pointer_witness :
  exists p s',
    Brainfuck_init [LBRACKET; MINUS; RBRACKET] = Ok p
    /\ step NumPy2 p (init_state 1 [] []) = Ok s'
    /\ jumps_at p (init_state 1 [] []) = true
    /\ jumps p !! 0%nat = Some 2%nat
    /\ ip s' = 3%nat.
Proof.
  destruct (Brainfuck_init [LBRACKET; MINUS; RBRACKET]) as [p|] eqn:Hp;
    [|vm_compute in Hp; discriminate].
  destruct (step NumPy2 p (init_state 1 [] [])) as [s'|] eqn:Hs;
    [|revert Hs; injection Hp as <-; vm_compute; discriminate].
  exists p, s'. split; [done|]. split; [done|].
  assert (Hj : jumps_at p (init_state 1 [] []) = true)
    by (injection Hp as <-; reflexivity).
  split; [done|].
  destruct (step_instruction_pointer (np := NumPy2) p _ s' Hs) as [H _].
  rewrite Hj in H. destruct H as (q & Hq & ->).
  assert (Hq2 : jumps p !! 0%nat = Some 2%nat)
    by (injection Hp as <-; reflexivity).
  simpl in Hq. split; [done|]. congruence.
Defined.

(** C2 as stated fails: on [[]] with a zero cell the partner of position 0
    is position 1, and the step leaves the instruction pointer at 2. *)
Lemma jump_sets_ip_to_partner_fails :
  exists p s',
    Brainfuck_init [LBRACKET; RBRACKET] = Ok p
    /\ code p !! ip (init_state 1 [] []) = Some LBRACKET
    /\ getitem (mem (init_state 1 [] [])) (dp (init_state 1 [] [])) = Ok 0
    /\ jumps p !! ip (init_state 1 [] []) = Some 1%nat
    /\ (forall np, step np p (init_state 1 [] []) = Ok s')
    /\ ip s' = 2%nat /\ ip s' <> 1%nat.
Proof.
  eexists _, (mkState 2 0 [0] 1 [] [] []). split; [vm_compute; reflexivity|].
  split; [reflexivity|]. split; [reflexivity|]. split; [reflexivity|].
  split; [by intros []|]. split; [reflexivity|]. simpl. lia.
Qed.

(** *** Data pointer *)

Lemma np_index_alias (n : nat) (d : Z) :
  - Z.of_nat n <= d < 0 -> np_index n (d + Z.of_nat n) = np_index n d.
Proof.
  intros H. rewrite (np_index_negative _ _ H). apply np_index_nonneg. lia.
Qed.

Lemma step_alias {np : numpy} (p : program) (s : state) (c : char) :
  code p !! ip s = Some c -> accesses_cell c = true ->
  - Z.of_nat (length (mem s)) <= dp s < 0 ->
  step np p s
  = match step np p (set_dp s (dp s + Z.of_nat (length (mem s)))) with
    | Ok s' => Ok (set_dp s' (dp s))
    | Raise e => Raise e
    end.
Proof.
  intros Hc Ha Hneg. pose proof (np_index_alias _ _ Hneg) as Hal.
  unfold step, item. simpl. rewrite Hc. simpl. revert Ha.
  unfold exec_instr, accesses_cell, getitem, setitem, setitem_int, item.
  simpl. rewrite Hal.
  destruct (np_index (length (mem s)) (dp s)) as [k|];
    case_instr c; simpl; try discriminate; intros _; try done.
  all: try (destruct (mem s !! k) as [v|]; simpl; [|done]).
  all: try (destruct (v =? 0); simpl).
  all: try (destruct (jumps p !! ip s) as [q|]; simpl).
  all: try (destruct (read_ord (input s)) as [[r|e] rest]; simpl).
  all: try (destruct np; simpl).
  all: repeat match goal with
         | |- context [(0 <=? ?x) && (?x <=? 255)] =>
             destruct ((0 <=? x) && (x <=? 255)); simpl
         end.
  all: by destruct s.
Qed.

Lemma step_indexed_not_IndexError {np : numpy} (p : program) (s : state)
    (c : char) (k : nat) :
  code p !! ip s = Some c ->
  np_index (length (mem s)) (dp s) = Some k ->
  step np p s <> Raise IndexError.
Proof.
  intros Hc Hk. pose proof (np_index_lt _ _ _ Hk) as Hlt.
  destruct (lookup_lt_is_Some_2 (mem s) k Hlt) as [v Hv].
  unfold step, item. rewrite Hc. simpl.
  unfold exec_instr, getitem, setitem, setitem_int, item. rewrite Hk, Hv.
  case_instr c; simpl; try done.
  all: try (destruct (v =? 0); simpl).
  all: try (destruct (jumps p !! ip s) as [q|]; simpl).
  all: try (destruct (read_ord (input s)) as [[r|e] rest]; simpl).
  all: try (destruct np; simpl).
  all: repeat match goal with
         | |- context [(0 <=? ?x) && (?x <=? 255)] =>
             destruct ((0 <=? x) && (x <=? 255)); simpl
         end.
  all: done.
Qed.

Lemma step_bracket {np : numpy} (p : program) (s : state) (c : char)
    (k : nat) (v : Z) :
  code p !! ip s = Some c -> is_bracket c = true ->
  np_index (length (mem s)) (dp s) = Some k -> mem s !! k = Some v ->
  step np p s
  = if (if c =? LBRACKET then v =? 0 else negb (v =? 0)) then
      match jumps p !! ip s with
      | Some q => Ok (set_icnt (set_ip s (q + 1)) (icnt s + 1))
      | None => Raise KeyError
      end
    else Ok (set_icnt (set_ip s (ip s + 1)) (icnt s + 1)).
Proof.
  intros Hc Hb Hk Hv. rewrite (step_at _ _ _ Hc). revert Hb.
  unfold exec_instr, is_bracket. rewrite (getitem_at _ _ _ _ Hk Hv).
  case_char c; simpl; try done; intros _.
  - destruct (v =? 0); simpl; [|done]. by destruct (jumps p !! ip s).
  - destruct (v =? 0); simpl; [done|]. by destruct (jumps p !! ip s).
Qed.

(** C3, as the code has it.  Moving the data pointer never fails and
    never wraps or clamps it.  An operator that touches the current cell
    fails the run with [IndexError] when the pointer is below [-n] or at
    least [n], for a tape of [n] cells, and [IndexError] is not one of the
    interpreter's numbered errors.  With [-n <= dp < 0] each of the six
    operators silently addresses cell [dp + n]: the step never raises
    [IndexError] and is the step taken with the pointer at [dp + n], the
    pointer itself apart; [+] and [-] rewrite that cell, [.] appends it,
    [[] and []] test it, [,] stores into it.  A step never resizes the tape
    and changes no cell but the one the pointer addresses: cell [dp], or
    cell [dp + n] for a negative pointer. *)
Theorem data_pointer_policy {np : numpy} (p : program) (s : state) (c : char) :
  code p !! ip s = Some c ->
  let n := Z.of_nat (length (mem s)) in
  let k := Z.to_nat (dp s + n) in
  (c = GT -> exists s', step np p s = Ok s' /\ dp s' = dp s + 1 /\ mem s' = mem s)
  /\ (c = LT -> exists s', step np p s = Ok s' /\ dp s' = dp s - 1 /\ mem s' = mem s)
  /\ (accesses_cell c = true -> dp s < - n \/ n <= dp s ->
        step np p s = Raise IndexError /\ errnr IndexError = None)
  /\ (accesses_cell c = true -> - n <= dp s < 0 ->
        step np p s <> Raise IndexError
        /\ step np p s = match step np p (set_dp s (dp s + n)) with
                         | Ok s' => Ok (set_dp s' (dp s))
                         | Raise e => Raise e
                         end)
  /\ (c = PLUS -> - n <= dp s < 0 ->
        exists v s', mem s !! k = Some v
          /\ step np p s = Ok s' /\ dp s' = dp s
          /\ mem s' = <[k := (v + 1) mod 256]> (mem s))
  /\ (c = MINUS -> - n <= dp s < 0 ->
        exists v s', mem s !! k = Some v
          /\ step np p s = Ok s' /\ dp s' = dp s
          /\ mem s' = <[k := (v - 1) mod 256]> (mem s))
  /\ (c = DOT -> - n <= dp s < 0 ->
        exists v s', mem s !! k = Some v
          /\ step np p s = Ok s' /\ dp s' = dp s
          /\ buf_out s' = buf_out s ++ [v])
  /\ (is_bracket c = true -> - n <= dp s < 0 ->
        exists v, mem s !! k = Some v
          /\ step np p s
             = if (if c =? LBRACKET then v =? 0 else negb (v =? 0)) then
                 match jumps p !! ip s with
                 | Some q => Ok (set_icnt (set_ip s (q + 1)) (icnt s + 1))
                 | None => Raise KeyError
                 end
               else Ok (set_icnt (set_ip s (ip s + 1)) (icnt s + 1)))
  /\ (c = COMMA -> - n <= dp s < 0 ->
        forall s', step np p s = Ok s' ->
        exists w, mem s' = <[k := w]> (mem s) /\ dp s' = dp s)
  /\ (forall s', step np p s = Ok s' ->
        length (mem s') = length (mem s)
        /\ forall j, Z.of_nat j <> (if 0 <=? dp s then dp s else dp s + n) ->
                     mem s' !! j = mem s !! j).
Proof.
  intros Hc n k.
  assert (Hcell : - n <= dp s < 0 ->
                  np_index (length (mem s)) (dp s) = Some k
                  /\ exists v, mem s !! k = Some v).
  { intros Hneg. split; [by apply np_index_negative|].
    apply lookup_lt_is_Some_2. subst n k. lia. }
  split; [|split; [|split; [|split; [|split; [|split; [|split;
    [|split; [|split]]]]]]]].
  - intros ->. rewrite (step_at _ _ _ Hc). by eexists.
  - intros ->. rewrite (step_at _ _ _ Hc). by eexists.
  - intros Ha Hout. split; [|done].
    apply (step_raise_outside _ _ _ Hc Ha). by apply np_index_outside.
  - intros Ha Hneg. destruct (Hcell Hneg) as [Hk _]. split.
    + by apply (step_indexed_not_IndexError p s c k).
    + by apply (step_alias p s c).
  - intros -> Hneg. destruct (Hcell Hneg) as [Hk [v Hv]].
    exists v. eexists. split; [done|].
    rewrite (step_plus _ _ _ _ Hc Hk Hv). by split.
  - intros -> Hneg. destruct (Hcell Hneg) as [Hk [v Hv]].
    exists v. eexists. split; [done|].
    rewrite (step_minus _ _ _ _ Hc Hk Hv). by split.
  - intros -> Hneg. destruct (Hcell Hneg) as [Hk [v Hv]].
    exists v. eexists. split; [done|].
    rewrite (step_at _ _ _ Hc). unfold exec_instr. simpl.
    rewrite (getitem_at _ _ _ _ Hk Hv). by split.
  - intros Hb Hneg. destruct (Hcell Hneg) as [Hk [v Hv]].
    exists v. split; [done|]. by apply (step_bracket p s c k v).
  - intros -> Hneg s' Hs. destruct (Hcell Hneg) as [Hk _].
    rewrite (step_at _ _ _ Hc) in Hs.
    apply bind_Ok in Hs as (s1 & Hex & [= <-]). simpl. revert Hex.
    unfold exec_instr. simpl.
    destruct (read_ord (input s)) as [[r|e] rest]; simpl.
    + destruct (setitem_int np (mem s) (dp s) r) as [m|] eqn:Hm; simpl.
      * intros [= <-]. apply setitem_int_Ok in Hm as (k' & Hk' & ->).
        assert (k' = k) as -> by congruence. by eexists.
      * destruct (setitem_int np (mem s) (dp s) (-1)) as [m|] eqn:Hm';
          simpl; [|done].
        intros [= <-]. apply setitem_int_Ok in Hm' as (k' & Hk' & ->).
        assert (k' = k) as -> by congruence. by eexists.
    + destruct (setitem_int np (mem s) (dp s) (-1)) as [m|] eqn:Hm';
        simpl; [|done].
      intros [= <-]. apply setitem_int_Ok in Hm' as (k' & Hk' & ->).
      assert (k' = k) as -> by congruence. by eexists.
  - intros s' Hs. split.
    + apply step_Ok in Hs as (c' & s1 & _ & Hex & ->). simpl.
      by apply exec_instr_mem in Hex as [-> _].
    + intros j Hj. apply step_Ok in Hs as (c' & s1 & _ & Hex & ->). simpl.
      apply exec_instr_mem in Hex as [_ Hframe]. apply Hframe.
      intros [_ Heq]%np_index_Some. by subst n.
Qed.

Lemma data_pointer_policy_witness :
  let p := mkProgram [LT; PLUS] ∅ 2 in
  let s := mkState 1 (-1) [0; 0; 0] 1 [] [] [] in
  exists v s', mem s !! 2%nat = Some v
          /\ step NumPy2 p s = Ok s' /\ dp s' = -1
          /\ mem s' = [0; 0; 1].
Proof.
  intros p s.
  destruct (data_pointer_policy (np := NumPy2) p s PLUS eq_refl)
    as (_ & _ & _ & _ & H & _).
  destruct H as (v & s' & Hv & Hs & Hd & Hm); [done|simpl; lia|].
  exists v, s'. split; [done|]. split; [done|]. split; [done|].
  rewrite Hm. simpl in Hv. injection Hv as <-. reflexivity.
Defined.

(** C3 as stated fails: [<+] on a tape of three cells moves the pointer to
    -1 and then increments the last cell; the run ends normally. *)
Lemma data_pointer_wraps_silently :
  exists p,
    Brainfuck_init [LT; PLUS] = Ok p
    /\ forall np, run_fuel np 3 p 3 (-1) [] []
                  = Some (Halted (mkState 2 (-1) [0; 0; 1] 2 [] [] [[]])).
Proof.
  exists (mkProgram [LT; PLUS] ∅ 2). split; [reflexivity|].
  intros []; vm_compute; reflexivity.
Qed.

(** *** Input *)

(** C4, on the code: with the data pointer on a cell [k], the input
    operator consumes one read.  With NumPy before 2.0 a character read is
    stored masked to 8 bits, the end of the input or a failed read stores
    255, and the step succeeds.  With NumPy 2 a character up to 255 is
    stored as it is, and a character above 255, the end of the input or a
    failed read make the step raise [OverflowError]: the handler's own store
    of [-1] is refused, and the run fails. *)
Theorem input_step_by_numpy {np : numpy} (p : program) (s : state) (k : nat) :
  code p !! ip s = Some COMMA ->
  np_index (length (mem s)) (dp s) = Some k ->
  let after v := mkState (S (ip s)) (dp s) (<[k := v]> (mem s))
                   (icnt s + 1) (buf_out s) (tail (input s)) (output s) in
  step np p s
  = match np, input s with
    | NumPy1, ReadChar c :: _ => Ok (after (Z.land c 255))
    | NumPy1, _ => Ok (after 255)
    | NumPy2, ReadChar c :: _ =>
        if (0 <=? c) && (c <=? 255) then Ok (after c) else Raise OverflowError
    | NumPy2, _ => Raise OverflowError
    end.
Proof.
  intros Hc Hk after. rewrite (step_at _ _ _ Hc). unfold exec_instr. simpl.
  subst after. unfold setitem_int. rewrite Hk.
  destruct np, (input s) as [|[c|] rest]; simpl;
    unfold set_icnt, set_ip, to_uint8; simpl; rewrite ?Nat.add_1_r; try done.
  - change 255 with (Z.ones 8). by rewrite Z.land_ones by lia.
  - destruct ((0 <=? c) && (c <=? 255)); simpl; [|done].
    by rewrite Nat.add_1_r.
Qed.

Lemma input_step_by_numpy_witness :
  step NumPy2 (mkProgram [COMMA] ∅ 1) (init_state 2 [] [])
  = Raise OverflowError
  /\ step NumPy2 (mkProgram [COMMA] ∅ 1) (init_state 2 [ReadChar 12354] [])
     = Raise OverflowError
  /\ step NumPy1 (mkProgram [COMMA] ∅ 1) (init_state 2 [] [])
     = Ok (mkState 1 0 [255; 0] 1 [] [] [])
  /\ run NumPy2 (mkProgram [COMMA] ∅ 1) 2 (-1) [] []
       (Raised OverflowError (init_state 2 [] [])).
Proof.
  split; [|split; [|split]].
  - apply (input_step_by_numpy (np := NumPy2) (mkProgram [COMMA] ∅ 1)
             (init_state 2 [] []) 0); reflexivity.
  - apply (input_step_by_numpy (np := NumPy2) (mkProgram [COMMA] ∅ 1)
             (init_state 2 [ReadChar 12354] []) 0); reflexivity.
  - apply (input_step_by_numpy (np := NumPy1) (mkProgram [COMMA] ∅ 1)
             (init_state 2 [] []) 0); reflexivity.
  - apply run_raised.
    apply (loop_raise NumPy2 (mkProgram [COMMA] ∅ 1) (-1) (init_state 2 [] []));
      [simpl; lia|reflexivity|].
    apply (input_step_by_numpy (np := NumPy2) (mkProgram [COMMA] ∅ 1)
             (init_state 2 [] []) 0); reflexivity.
Defined.

(** *** Cell arithmetic *)

Lemma steps_plus {np : numpy} (p : program) (n : nat) (s : state) (k : nat) (v : Z) :
  (forall i, (ip s <= i < ip s + n)%nat -> code p !! i = Some PLUS) ->
  np_index (length (mem s)) (dp s) = Some k ->
  mem s !! k = Some v -> 0 <= v < 256 ->
  steps np n p s
  = Ok (mkState (ip s + n) (dp s) (<[k := (v + Z.of_nat n) mod 256]> (mem s))
          (icnt s + Z.of_nat n) (buf_out s) (input s) (output s)).
Proof.
  revert s v. induction n as [|n IH]; intros s v Hcode Hk Hv Hr.
  - simpl. rewrite Z.add_0_r, Nat.add_0_r, Z.add_0_r.
    rewrite Z.mod_small by done. rewrite list_insert_id by done.
    by destruct s.
  - simpl. rewrite (step_plus p s k v); [|apply Hcode; lia|done|done]. simpl.
    rewrite (IH _ ((v + 1) mod 256)); simpl.
    + f_equal. f_equal; try lia.
      rewrite list_insert_insert_eq. f_equal.
      rewrite Zplus_mod_idemp_l. f_equal. lia.
    + intros i Hi. apply Hcode. lia.
    + by rewrite length_insert.
    + apply list_lookup_insert_eq. by apply np_index_lt in Hk.
    + by apply Z.mod_pos_bound.
Qed.

(** C9: on a cell holding any byte [v], 256 consecutive increments bring
    the cell back to [v] (the tape is unchanged), and a decrement of a cell
    holding 0 leaves 255 in it. *)
Theorem cell_arithmetic_wraps {np : numpy} (p : program) (s : state) (k : nat) (v : Z) :
  np_index (length (mem s)) (dp s) = Some k ->
  mem s !! k = Some v -> 0 <= v < 256 ->
  ((forall i, (ip s <= i < ip s + 256)%nat -> code p !! i = Some PLUS) ->
   exists s', steps np 256 p s = Ok s' /\ mem s' = mem s /\ dp s' = dp s)
  /\ (code p !! ip s = Some MINUS -> v = 0 ->
      exists s', step np p s = Ok s' /\ mem s' = <[k := 255]> (mem s)
                 /\ dp s' = dp s).
Proof.
  intros Hk Hv Hr. split.
  - intros Hcode. rewrite (steps_plus p 256 s k v) by done.
    eexists. split; [done|]. simpl. split; [|done].
    replace ((v + Z.of_nat 256) mod 256) with v.
    + by apply list_insert_id.
    + change (Z.of_nat 256) with (1 * 256). rewrite Z_mod_plus_full.
      by rewrite Z.mod_small.
  - intros Hc ->. rewrite (step_minus p s k 0) by done. by eexists.
Qed.

Lemma cell_arithmetic_wraps_witness :
  (exists s', steps NumPy2 256 (mkProgram (replicate 256 PLUS) ∅ 256)
                (mkState 0 1 [7; 200] 0 [] [] []) = Ok s'
              /\ mem s' = [7; 200] /\ dp s' = 1)
  /\ (exists s', step NumPy2 (mkProgram [MINUS] ∅ 1) (init_state 2 [] []) = Ok s'
                 /\ mem s' = [255; 0] /\ dp s' = 0).
Proof.
  split.
  - pose proof (cell_arithmetic_wraps (np := NumPy2) (mkProgram (replicate 256 PLUS) ∅ 256)
                  (mkState 0 1 [7; 200] 0 [] [] []) 1 200) as H.
    destruct H as [H _]; [reflexivity|reflexivity|lia|].
    apply H. intros i Hi. apply lookup_replicate_2.
    change (ip (mkState 0 1 [7; 200] 0 [] [] [])) with 0%nat in Hi. lia.
  - pose proof (cell_arithmetic_wraps (np := NumPy2) (mkProgram [MINUS] ∅ 1)
                  (init_state 2 [] []) 0 0) as H.
    destruct H as [_ H]; [reflexivity|reflexivity|lia|].
    apply H; reflexivity.
Defined.

(** *** The loop: relation and function *)

Lemma loop_deterministic {np : numpy} (p : program) (max_instr : Z) (s : state) (o1 o2 : outcome) :
  loop np p max_instr s o1 -> loop np p max_instr s o2 -> o1 = o2.
Proof.
  intros H1. revert o2.
  induction H1 as [s Hip|s Hip Hb|s e Hip Hb Hs|s s' o Hip Hb Hs _ IH];
    intros o2 H2; inversion H2; subst; try lia; try congruence.
  apply IH. congruence.
Qed.

Lemma run_loop_sound {np : numpy} (fuel : nat) (p : program) (max_instr : Z) (s : state) (o : outcome) :
  run_loop np fuel p max_instr s = Some o -> loop np p max_instr s o.
Proof.
  revert s. induction fuel as [|fuel IH]; intros s; [done|]. simpl.
  destruct (Nat.ltb_spec (ip s) (c_len p)) as [Hip|Hip].
  - destruct (over_budget max_instr s) eqn:Hb.
    + intros [= <-]. by apply loop_budget.
    + destruct (step np p s) as [s'|e] eqn:Hs.
      * intros H. eapply loop_step; eauto.
      * intros [= <-]. by apply loop_raise.
  - intros [= <-]. by apply loop_exit.
Qed.

Lemma run_loop_complete {np : numpy} (p : program) (max_instr : Z) (s : state) (o : outcome) :
  loop np p max_instr s o -> exists fuel, run_loop np fuel p max_instr s = Some o.
Proof.
  induction 1 as [s Hip|s Hip Hb|s e Hip Hb Hs|s s' o Hip Hb Hs _ [fuel IH]].
  - exists 1%nat. simpl. by destruct (Nat.ltb_spec (ip s) (c_len p)); [lia|].
  - exists 1%nat. simpl. destruct (Nat.ltb_spec (ip s) (c_len p)); [|lia].
    by rewrite Hb.
  - exists 1%nat. simpl. destruct (Nat.ltb_spec (ip s) (c_len p)); [|lia].
    by rewrite Hb, Hs.
  - exists (S fuel). simpl. destruct (Nat.ltb_spec (ip s) (c_len p)); [|lia].
    by rewrite Hb, Hs.
Qed.

Lemma run_fuel_sound {np : numpy} (fuel : nat) (p : program) (mem_size : nat) (max_instr : Z)
    (inp : list read_event) (out : list text) (o : outcome) :
  run_fuel np fuel p mem_size max_instr inp out = Some o ->
  run np p mem_size max_instr inp out o.
Proof.
  unfold run_fuel.
  destruct (run_loop _ _ _ _ _) as [[s|e s]|] eqn:Hl; [| |done];
    intros [= <-]; apply run_loop_sound in Hl.
  - by apply run_done.
  - by apply run_raised.
Qed.

Lemma step_output {np : numpy} (p : program) (s s' : state) :
  step np p s = Ok s' ->
  output s' = output s
  /\ (buf_out s' = buf_out s
      \/ exists v, code p !! ip s = Some DOT /\ getitem (mem s) (dp s) = Ok v
                   /\ buf_out s' = buf_out s ++ [v]).
Proof.
  intros (c & s1 & Hc & Hex & ->)%step_Ok. simpl.
  apply exec_instr_output in Hex as [Ho [Hb|(v & -> & Hg & Hb)]]; eauto 10.
Qed.

Lemma loop_output {np : numpy} (p : program) (max_instr : Z) (s : state) (o : outcome) :
  loop np p max_instr s o -> output (final o) = output s.
Proof.
  induction 1 as [s Hip|s Hip Hb|s e Hip Hb Hs|s s' o Hip Hb Hs _ IH]; try done.
  rewrite IH. by apply step_output in Hs as [-> _].
Qed.

(** *** Output *)

Lemma exec_instr_buffer {np : numpy} (p : program) (c : char) (s s1 : state) :
  exec_instr np p c s = Ok s1 ->
  (c = DOT /\ exists v, getitem (mem s) (dp s) = Ok v
                        /\ buf_out s1 = buf_out s ++ [v])
  \/ (c <> DOT /\ buf_out s1 = buf_out s).
Proof.
  exec_cases c; intros [= <-]; simpl.
  all: try (right; split; [|done]).
  all: try (unfold PLUS, MINUS, GT, LT, LBRACKET, RBRACKET, COMMA, DOT in *; lia).
  left. split; [done|]. by exists v.
Qed.

(** C8, as the code has it.  No step writes to the sink; a successful
    step of the output operator appends the current cell to the buffer, and
    a step of any other operator leaves the buffer as it is.  While the
    loop runs the sink keeps its content.  When the loop has ended, the
    buffer is decoded as UTF-8: a well-formed buffer is written to the sink
    as one string, the only write of the run; an ill-formed one makes the
    run fail with [UnicodeDecodeError], nothing written.  A run that fails
    inside the loop writes nothing. *)
Theorem output_flushed_once :
  (forall np p s s' c,
     code p !! ip s = Some c -> step np p s = Ok s' ->
     output s' = output s
     /\ ((c = DOT /\ exists v, getitem (mem s) (dp s) = Ok v
                              /\ buf_out s' = buf_out s ++ [v])
         \/ (c <> DOT /\ buf_out s' = buf_out s)))
  /\ (forall np p mem_size max_instr inp out o,
       run np p mem_size max_instr inp out o ->
       exists o', loop np p max_instr (init_state mem_size inp out) o'
         /\ output (final o') = out
         /\ match o' with
            | Halted s =>
                match utf8_decode (buf_out s) with
                | Some t => o = Halted (set_output s (out ++ [t]))
                | None => o = Raised UnicodeDecodeError s
                end
            | Raised e s => o = Raised e s
            end)
  /\ (forall np p mem_size max_instr inp out o,
       run np p mem_size max_instr inp out o ->
       match o with
       | Halted s' =>
           exists t, utf8_decode (buf_out s') = Some t /\ output s' = out ++ [t]
       | Raised e s' => output s' = out
       end).
Proof.
  split; [|split].
  - intros np p s s' c Hc Hs. split; [by apply step_output in Hs as [? _]|].
    rewrite (step_at _ _ _ Hc) in Hs.
    apply bind_Ok in Hs as (s1 & Hex & [= <-]). simpl.
    by apply exec_instr_buffer in Hex.
  - intros np p mem_size max_instr inp out o [s Hl|e s Hl].
    + exists (Halted s). split; [done|].
      pose proof (loop_output _ _ _ _ Hl) as Ho. simpl in Ho.
      split; [done|]. unfold flush. rewrite Ho.
      by destruct (utf8_decode (buf_out s)).
    + exists (Raised e s). split; [done|]. split; [|done].
      by apply loop_output in Hl.
  - intros np p mem_size max_instr inp out o [s Hl|e s Hl].
    + apply loop_output in Hl. simpl in Hl. unfold flush.
      destruct (utf8_decode (buf_out s)) as [t|] eqn:Ht; simpl.
      * exists t. by rewrite Hl.
      * done.
    + by apply loop_output in Hl.
Qed.

Lemma output_flushed_once_witness :
  exists p s',
    Brainfuck_init [COMMA; DOT] = Ok p
    /\ run NumPy2 p 1 (-1) [ReadChar 65] [] (Halted s')
    /\ exists t, utf8_decode (buf_out s') = Some t /\ output s' = [] ++ [t].
Proof.
  eexists (mkProgram [COMMA; DOT] ∅ 2), _.
  split; [reflexivity|].
  assert (H : run NumPy2 (mkProgram [COMMA; DOT] ∅ 2) 1 (-1) [ReadChar 65] []
                (Halted (mkState 2 0 [65] 2 [65] [] [[65]])))
    by (apply (run_fuel_sound (np := NumPy2) 3); reflexivity).
  split; [exact H|].
  exact (proj2 (proj2 output_flushed_once) _ _ _ _ _ _ _ H).
Defined.

(** C8 as stated fails: [-.] buffers the byte 255 and reaches the end of
    the program, but the flush raises and the sink receives nothing. *)
Lemma invalid_utf8_buffer_never_reaches_sink :
  exists p s,
    Brainfuck_init [MINUS; DOT] = Ok p
    /\ (forall np, run np p 1 (-1) [] [] (Raised UnicodeDecodeError s))
    /\ ip s = c_len p /\ buf_out s = [255] /\ output s = [].
Proof.
  exists (mkProgram [MINUS; DOT] ∅ 2), (mkState 2 0 [255] 2 [255] [] []).
  split; [reflexivity|]. split.
  - intros np. apply (run_fuel_sound (np := np) 3). by destruct np.
  - by repeat split.
Qed.

(** *** Instruction budget *)

Lemma getitem_Raise (m : list Z) (d : Z) (e : error) :
  getitem m d = Raise e -> e = IndexError.
Proof.
  unfold getitem, item. destruct (np_index _ _) as [k|]; [|by intros [= <-]].
  destruct (m !! k); [done|by intros [= <-]].
Qed.

Lemma setitem_Raise (m : list Z) (d v : Z) (e : error) :
  setitem m d v = Raise e -> e = IndexError.
Proof.
  unfold setitem. destruct (np_index _ _) as [k|]; [done|by intros [= <-]].
Qed.

Lemma setitem_int_Raise (np : numpy) (m : list Z) (d v : Z) (e : error) :
  setitem_int np m d v = Raise e ->
  e = IndexError \/ (e = OverflowError /\ np = NumPy2).
Proof.
  unfold setitem_int. destruct (np_index _ _) as [k|]; [|intros [= <-]; by left].
  destruct np; [done|].
  destruct ((0 <=? v) && (v <=? 255)); [done|]. intros [= <-]. by right.
Qed.

Lemma step_Raise_kind {np : numpy} (p : program) (s : state) (e : error) :
  step np p s = Raise e ->
  e = IndexError \/ e = KeyError
  \/ (e = OverflowError /\ np = NumPy2 /\ code p !! ip s = Some COMMA).
Proof.
  unfold step, item. destruct (code p !! ip s) as [c|]; simpl;
    [|intros [= <-]; by left].
  destruct (exec_instr np p c s) as [s1|e1] eqn:Hex; simpl; [done|].
  intros [= <-]. revert Hex.
  exec_cases c; intros [= <-];
    repeat match goal with
      | H : getitem _ _ = Raise _ |- _ => apply getitem_Raise in H
      | H : setitem _ _ _ = Raise _ |- _ => apply setitem_Raise in H
      | H : setitem_int _ _ _ _ = Raise _ |- _ =>
          apply setitem_int_Raise in H as [?|[? ?]]
      end; auto.
Qed.

Lemma budget_raised_over {np : numpy} (p : program) (max_instr : Z) (s : state) (o : outcome) :
  loop np p max_instr s o ->
  forall s', o = Raised MaxInstrExceeded s' ->
  0 <= max_instr < icnt s'.
Proof.
  induction 1 as [s Hip|s Hip Hb|s e Hip Hb Hs|s s1 o Hip Hb Hs _ IH];
    intros s' Ho; [done| | |by apply IH].
  - injection Ho as <-. unfold over_budget in Hb.
    apply andb_true_iff in Hb as [H1%Z.ltb_lt H2%Z.leb_le]. lia.
  - injection Ho as -> <-. by apply step_Raise_kind in Hs as [?|[?|[? _]]].
Qed.

Lemma loop_icnt_bound {np : numpy} (p : program) (max_instr : Z) (s : state) (o : outcome) :
  loop np p max_instr s o ->
  0 <= max_instr -> icnt s <= max_instr + 1 ->
  icnt (final o) <= max_instr + 1.
Proof.
  induction 1 as [s Hip|s Hip Hb|s e Hip Hb Hs|s s1 o Hip Hb Hs _ IH];
    intros H0 Hi; try done.
  apply IH; [done|].
  apply step_icnt in Hs as ->.
  unfold over_budget in Hb.
  apply andb_false_iff in Hb as [H%Z.ltb_ge|H%Z.leb_gt]; lia.
Qed.

(** The budget test lets the loop body run while [icnt <= max_instr]: a
    run that the budget stops has executed exactly [max_instr + 1] steps. *)
Lemma budget_stops_after {np : numpy} (p : program) (mem_size : nat) (max_instr : Z)
    (inp : list read_event) (out : list text) (s : state) :
  run np p mem_size max_instr inp out (Raised MaxInstrExceeded s) ->
  icnt s = max_instr + 1.
Proof.
  intros H. inversion H as [s0 Hl Hf|e s0 Hl]; subst.
  - unfold flush in Hf. by destruct (utf8_decode _).
  - pose proof (budget_raised_over _ _ _ _ Hl s eq_refl) as [H0 H1].
    pose proof (loop_icnt_bound _ _ _ _ Hl H0) as H2. simpl in H2. lia.
Qed.

Lemma plus_loop_spins {np : numpy} (p : program) (b : Z) (s : state) (n : nat) (m : list Z) :
  code p = [PLUS; LBRACKET; RBRACKET] -> c_len p = 3%nat ->
  jumps p !! 2%nat = Some 1%nat ->
  ip s = 2%nat -> dp s = 0 -> mem s = 1 :: m ->
  0 <= b -> icnt s + Z.of_nat n = b + 1 ->
  exists s', loop np p b s (Raised MaxInstrExceeded s').
Proof.
  intros Hcode Hlen Hj. revert s.
  induction n as [|n IH]; intros s Hip Hdp Hmem Hb Hi.
  - exists s. apply loop_budget; [lia|]. unfold over_budget.
    apply andb_true_iff. split; [apply Z.ltb_lt|apply Z.leb_le]; lia.
  - assert (Hs : step np p s = Ok (set_icnt s (icnt s + 1))).
    { unfold step, item. rewrite Hcode, Hip. simpl.
      unfold exec_instr, getitem, item. rewrite Hmem, Hdp, Hip. simpl.
      rewrite Hj. simpl. unfold set_icnt, set_ip. simpl. by rewrite Hip. }
    destruct (IH (set_icnt s (icnt s + 1))) as [s' Hl]; simpl; try done; [lia|].
    exists s'. eapply loop_step; [lia| |exact Hs|exact Hl].
    unfold over_budget. apply andb_false_iff. left. apply Z.ltb_ge. lia.
Qed.

(** C1, at its example: on any tape of at least one cell, [+[]] run with
    [max_instr = 1000] is stopped by the budget, and the instruction
    counter then stands at 1001: the test [icnt > max_instr] precedes each
    step, so 1001 steps were executed, not 1000. *)
Theorem budget_1000_stops_after_1001_steps {np : numpy}
    (mem_size : nat) (inp : list read_event) (out : list text) :
  (0 < mem_size)%nat ->
  exists p s,
    Brainfuck_init [PLUS; LBRACKET; RBRACKET] = Ok p
    /\ run np p mem_size 1000 inp out (Raised MaxInstrExceeded s)
    /\ icnt s = 1001.
Proof.
  intros Hn. destruct mem_size as [|n]; [lia|].
  destruct (Brainfuck_init [PLUS; LBRACKET; RBRACKET]) as [p|] eqn:Hp;
    [|vm_compute in Hp; discriminate].
  assert (Hcode : code p = [PLUS; LBRACKET; RBRACKET])
    by (injection Hp as <-; reflexivity).
  assert (Hlen : c_len p = 3%nat) by (injection Hp as <-; reflexivity).
  assert (Hj : jumps p !! 2%nat = Some 1%nat)
    by (injection Hp as <-; reflexivity).
  set (s0 := init_state (S n) inp out).
  set (s1 := mkState 1 0 (1 :: replicate n 0) 1 [] inp out).
  set (s2 := mkState 2 0 (1 :: replicate n 0) 2 [] inp out).
  assert (H1 : step np p s0 = Ok s1).
  { unfold step, item. rewrite Hcode. reflexivity. }
  assert (H2 : step np p s1 = Ok s2).
  { unfold step, item. rewrite Hcode. reflexivity. }
  destruct (plus_loop_spins (np := np) p 1000 s2 999 (replicate n 0)) as [s Hl];
    try done.
  assert (Hrun : run np p (S n) 1000 inp out (Raised MaxInstrExceeded s)).
  { apply run_raised.
    eapply loop_step; [rewrite Hlen; simpl; lia|reflexivity|exact H1|].
    eapply loop_step; [rewrite Hlen; simpl; lia|reflexivity|exact H2|].
    exact Hl. }
  exists p, s. split; [done|]. split; [done|].
  by apply budget_stops_after in Hrun.
Qed.

Lemma budget_1000_stops_after_1001_steps_witness :
  exists p s,
    Brainfuck_init [PLUS; LBRACKET; RBRACKET] = Ok p
    /\ run NumPy2 p 3 1000 [] [] (Raised MaxInstrExceeded s)
    /\ icnt s = 1001.
Proof.
  apply (budget_1000_stops_after_1001_steps (np := NumPy2) 3 [] []). lia.
Defined.

(** *** Determinism *)

Lemma run_deterministic {np : numpy} (p : program) (mem_size : nat) (max_instr : Z)
    (inp : list read_event) (out : list text) (o1 o2 : outcome) :
  run np p mem_size max_instr inp out o1 ->
  run np p mem_size max_instr inp out o2 -> o1 = o2.
Proof.
  intros [s1 H1|e1 s1 H1] [s2 H2|e2 s2 H2];
    pose proof (loop_deterministic _ _ _ _ _ H1 H2) as H; congruence.
Qed.








Lemma interp_bf_deterministic {np : numpy} (src : text) (mem_size : nat) (max_instr : Z)
    (inp : list read_event) (out : list text) (r1 r2 : outcome + error) :
  interp_bf np src mem_size max_instr inp out r1 ->
  interp_bf np src mem_size max_instr inp out r2 ->
  r1 = r2.
Proof.
  intros [e1 H1|p1 o1 H1 Hr1] [e2 H2|p2 o2 H2 Hr2]; try congruence.
  assert (p1 = p2) as -> by congruence.
  f_equal. by eapply run_deterministic.
Qed.

(** *** End-to-end runs *)

Example echo_one_byte (np : numpy) :
  exists s, interp_bf np [COMMA; DOT] 30 (-1) [ReadChar 65] [] (inl (Halted s))
            /\ returned s = [65].
Proof.
  exists (mkState 2 0 (65 :: replicate 29 0) 2 [65] [] [[65]]). split.
  - apply (interp_bf_run _ _ _ _ _ _ (mkProgram [COMMA; DOT] ∅ 2)); [reflexivity|].
    apply (run_fuel_sound (np := np) 3). by destruct np.
  - reflexivity.
Qed.

Example eight_times_eight (np : numpy) :
  match Brainfuck_init
          [PLUS; PLUS; PLUS; PLUS; PLUS; PLUS; PLUS; PLUS; LBRACKET; GT;
           PLUS; PLUS; PLUS; PLUS; PLUS; PLUS; PLUS; PLUS; LT; MINUS;
           RBRACKET; GT; DOT] with
  | Ok p => returned <$> (final <$> run_fuel np 200 p 30 (-1) [] [])
  | Raise _ => None
  end = Some [64].
Proof. destruct np; vm_compute; reflexivity. Qed.

(** * Further properties of the code *)

(** ** Construction *)

Lemma strip_app (a b : text) : strip (a ++ b) = strip a ++ strip b.
Proof. rewrite !strip_filter. apply List.filter_app. Qed.

Lemma strip_strip (s : text) : strip (strip s) = strip s.
Proof. apply strip_id, strip_all_operators. Qed.

Lemma Brainfuck_init_strip (src : text) :
  Brainfuck_init (strip src) = Brainfuck_init src.
Proof.
  unfold Brainfuck_init. rewrite !count_strip by reflexivity.
  by rewrite strip_strip.
Qed.

Lemma Brainfuck_init_Raise (src : text) (e : error) :
  Brainfuck_init src = Raise e ->
  (e = UnmatchedNumber /\ count src LBRACKET <> count src RBRACKET)
  \/ (count src LBRACKET = count src RBRACKET
      /\ exists i c, e = UnmatchedBracket i
           /\ strip src !! i = Some c /\ is_bracket c = true
           /\ partner (strip src) i = None).
Proof.
  unfold Brainfuck_init.
  destruct (Nat.eqb_spec (count src LBRACKET) (count src RBRACKET)) as [Hc|Hc];
    simpl.
  - destruct (find_jumps _ _ _ _) as [j|e'] eqn:Hf; simpl; [done|].
    intros [= <-]. right. split; [done|].
    apply find_jumps_Raise in Hf as (i & c & -> & _ & Hi & Hb & Hp);
      [|intros; apply lookup_empty|simpl; lia].
    by exists i, c.
  - intros [= <-]. by left.
Qed.

(** X1: construction fails with 'Unmatched number of brackets' exactly
    when the text holds different numbers of [[] and []], noise
    included or not. *)
Theorem unequal_counts_rejected (src : text) :
  Brainfuck_init src = Raise UnmatchedNumber
  <-> count src LBRACKET <> count src RBRACKET.
Proof.
  split.
  - intros [[_ H]|(_ & i & c & H & _)]%Brainfuck_init_Raise; [done|discriminate].
  - intros H. unfold Brainfuck_init.
    by destruct (Nat.eqb_spec (count src LBRACKET) (count src RBRACKET)).
Qed.

Lemma unequal_counts_rejected_witness :
  Brainfuck_init [LBRACKET; LBRACKET; RBRACKET] = Raise UnmatchedNumber.
Proof.
  apply (unequal_counts_rejected [LBRACKET; LBRACKET; RBRACKET]).
  simpl. lia.
Defined.

(** X2: the program a construction stores holds operator characters
    only, [c_len] is its length, and constructing from that stored text
    again gives the same program: noise in the source changes nothing. *)
Theorem noise_is_ignored (src : text) (p : program) :
  Brainfuck_init src = Ok p ->
  Forall (fun c => is_operator c = true) (code p)
  /\ c_len p = length (code p)
  /\ Brainfuck_init (code p) = Ok p.
Proof.
  intros H. destruct (Brainfuck_init_Ok _ _ H) as (Hcode & Hlen & _ & _).
  rewrite Hcode. split; [apply strip_all_operators|]. split; [done|].
  by rewrite Brainfuck_init_strip.
Qed.

Lemma noise_is_ignored_witness :
  let p := mkProgram [COMMA; DOT] ∅ 2 in
  Forall (fun c => is_operator c = true) (code p)
  /\ c_len p = length (code p)
  /\ Brainfuck_init (code p) = Ok p.
Proof.
  intros p. apply (noise_is_ignored [104; COMMA; 105; DOT; 10] p).
  reflexivity.
Defined.

Lemma nested_init_Ok (src : text) :
  nested 0 src = true -> exists p, Brainfuck_init src = Ok p.
Proof.
  intros Hn.
  assert (Hcount : count src LBRACKET = count src RBRACKET).
  { apply nested_heap, fwd_heap_count in Hn. lia. }
  destruct (Brainfuck_init src) as [p|e] eqn:Hinit; [by exists p|].
  apply Brainfuck_init_Raise in Hinit
    as [[_ H]|(_ & i & c & _ & Hi & Hb & Hp)]; [done|].
  assert (Hns : nested 0 (strip src) = true) by by rewrite nested_strip.
  destruct (nested_has_partner _ _ _ Hns Hi Hb) as [q Hq]. congruence.
Qed.

Lemma init_Ok_nested (src : text) (p : program) :
  Brainfuck_init src = Ok p -> nested 0 src = true.
Proof.
  intros H. destruct (nested 0 src) eqn:Hn; [done|]. exfalso.
  destruct (Brainfuck_init_Ok _ _ H) as (_ & _ & Hcount & Hj).
  destruct (crossing_has_orphan (strip src)) as (i & Hi & Hp).
  { by rewrite !count_strip by reflexivity. }
  { by rewrite nested_strip. }
  revert H. unfold Brainfuck_init. rewrite Hcount, Nat.eqb_refl. simpl.
  destruct (find_jumps _ _ _ _) as [j|e] eqn:Hf; [|done]. intros _.
  destruct (find_jumps_Ok_matched _ _ _ _ _ (fun k _ => lookup_empty k) Hf
              i RBRACKET) as [q Hq]; [|done|done|congruence].
  apply lookup_lt_Some in Hi. lia.
Qed.

(** X3: construction succeeds exactly for the texts whose brackets nest
    properly. *)
Theorem accepted_iff_nested (src : text) :
  (exists p, Brainfuck_init src = Ok p) <-> nests_properly src.
Proof.
  split.
  - intros [p H]. by apply init_Ok_nested in H.
  - apply nested_init_Ok.
Qed.

Lemma accepted_iff_nested_witness :
  nests_properly [LBRACKET; PLUS; LBRACKET; RBRACKET; RBRACKET].
Proof.
  apply (accepted_iff_nested [LBRACKET; PLUS; LBRACKET; RBRACKET; RBRACKET]).
  exists (mkProgram [LBRACKET; PLUS; LBRACKET; RBRACKET; RBRACKET]
            {[0%nat := 4%nat; 2%nat := 3%nat; 3%nat := 2%nat; 4%nat := 0%nat]} 5).
  reflexivity.
Defined.

(** X4: a failing construction raises a [BrainfuckError] with [errnr] 1
    or 4, nothing else (no lookup ever fails inside the scans). *)
Theorem construction_errors (src : text) (e : error) :
  Brainfuck_init src = Raise e ->
  errnr e = Some 1%nat \/ errnr e = Some 4%nat.
Proof.
  intros [[-> _]|(_ & i & c & -> & _)]%Brainfuck_init_Raise; auto.
Qed.

Lemma construction_errors_witness :
  errnr (UnmatchedBracket 0) = Some 1%nat \/ errnr (UnmatchedBracket 0) = Some 4%nat.
Proof.
  apply (construction_errors [RBRACKET; LBRACKET]). reflexivity.
Defined.

Lemma partner_open_segment (code : text) (i j : nat) :
  code !! i = Some LBRACKET -> partner code i = Some j ->
  (i < j)%nat /\ code !! j = Some RBRACKET
  /\ nested 0 (take (j - i - 1) (drop (S i) code)) = true.
Proof.
  intros Hi Hp. unfold partner in Hp. rewrite Hi in Hp. simpl in Hp.
  destruct (split_at _ _ _ Hi) as [Hcode Hlen].
  pose proof Hp as Hq. rewrite <- Hlen in Hq at 2.
  apply partner_of_open in Hq as [Hj _]. rewrite <- Hcode in Hj.
  apply scan_fwd_Some in Hp as (m & rest & Hd & Hm & ->).
  split; [lia|]. split; [done|].
  rewrite Hd. replace (S i + length m - i - 1)%nat with (length m) by lia.
  rewrite take_app_length. by apply nested_heap.
Qed.

(** X5: in a constructed program an entry of the jump table joins an
    opening bracket to the closing bracket after it that matches it: both
    directions are recorded, and the text strictly between the two nests
    properly. *)
Theorem jump_partner_matches (src : text) (p : program) (i j : nat) :
  Brainfuck_init src = Ok p ->
  jumps p !! i = Some j ->
  let a := Nat.min i j in
  let b := Nat.max i j in
  (a < b)%nat
  /\ code p !! a = Some LBRACKET /\ code p !! b = Some RBRACKET
  /\ jumps p !! a = Some b /\ jumps p !! b = Some a
  /\ nests_properly (take (b - a - 1) (drop (S a) (code p))).
Proof.
  intros Hinit Hij a b. subst a b.
  destruct (Brainfuck_init_Ok _ _ Hinit) as (Hcode & _ & _ & Hj).
  rewrite Hj in Hij.
  pose proof (partner_symmetric _ _ _ Hij) as Hji.
  destruct (partner_is_bracket _ _ _ Hij) as (c & Hc & Hb).
  unfold is_bracket in Hb. revert Hb Hc. case_char c; simpl; [| |done];
    intros _ Hc.
  - destruct (partner_open_segment _ _ _ Hc Hij) as (Hlt & Hr & Hn).
    rewrite Nat.min_l, Nat.max_r by lia. rewrite Hcode, !Hj.
    by repeat split.
  - assert (Hl : strip src !! j = Some LBRACKET).
    { destruct (split_at _ _ _ Hc) as [Hs _].
      unfold partner in Hij. rewrite Hc in Hij. simpl in Hij.
      apply (partner_of_close _ (drop (S i) (strip src))) in Hij as [H _].
      by rewrite <- Hs in H. }
    destruct (partner_open_segment _ _ _ Hl Hji) as (Hlt & Hr & Hn).
    rewrite Nat.min_r, Nat.max_l by lia. rewrite Hcode, !Hj.
    by repeat split.
Qed.

Lemma jump_partner_matches_witness :
  let p := mkProgram [LBRACKET; LBRACKET; MINUS; RBRACKET; RBRACKET]
             {[0%nat := 4%nat; 1%nat := 3%nat; 3%nat := 1%nat; 4%nat := 0%nat]} 5 in
  (0 < 4)%nat
  /\ code p !! 0%nat = Some LBRACKET /\ code p !! 4%nat = Some RBRACKET
  /\ jumps p !! 0%nat = Some 4%nat /\ jumps p !! 4%nat = Some 0%nat
  /\ nests_properly (take 3 (drop 1 (code p))).
Proof.
  intros p.
  apply (jump_partner_matches
           [LBRACKET; 32; LBRACKET; MINUS; RBRACKET; RBRACKET] p 4 0);
    reflexivity.
Defined.

Lemma scan_fwd_None (rest : text) (k i : nat) :
  scan_fwd rest k i = None -> exists d, fwd_heap k rest = Some d.
Proof.
  revert k i. induction rest as [|c rest IH]; intros k i; simpl.
  - intros _. by exists k.
  - case_char c; simpl; try apply IH.
    destruct k; [done|apply IH].
Qed.

Lemma fwd_heap_shift (m : text) (k k' a : nat) :
  fwd_heap k m = Some k' -> fwd_heap (k + a) m = Some (k' + a)%nat.
Proof.
  revert k. induction m as [|c m IH]; intros k; simpl.
  - by intros [= ->].
  - case_char c; simpl.
    + intros H. by apply (IH (S k)).
    + destruct k as [|k]; [done|]. simpl. apply IH.
    + apply IH.
Qed.

Lemma find_jumps_Raise_first (code : text) (n d : nat) (j : gmap nat nat) (i : nat) :
  (forall k, (d <= k)%nat -> j !! k = None) ->
  (d + n <= length code)%nat ->
  find_jumps code n d j = Raise (UnmatchedBracket i) ->
  forall i' c, (d <= i' < i)%nat -> code !! i' = Some c ->
               is_bracket c = true -> is_Some (partner code i').
Proof.
  revert d j. induction n as [|n IH]; intros d j Hfresh Hlen H i' c Hi' Hc Hb;
    [done|].
  assert (Hd : (d < length code)%nat) by lia.
  destruct (lookup_lt_is_Some_2 code d Hd) as [c' Hc'].
  rewrite (find_jumps_S _ _ _ _ c') in H by auto.
  destruct (decide (i' = d)) as [->|Hne].
  - assert (c' = c) as -> by congruence. rewrite Hb in H.
    destruct (partner code d); [done|]. injection H as <-. lia.
  - destruct (is_bracket c').
    + destruct (partner code d) as [q|].
      * apply (IH (S d) (<[d := q]> j)) with (c := c); try done; try lia.
        intros k Hk. rewrite lookup_insert_ne by lia. apply Hfresh. lia.
      * injection H as <-. lia.
    + apply (IH (S d) j) with (c := c); try done; try lia.
      intros k Hk. apply Hfresh. lia.
Qed.

Lemma prefix_heap_of_matched (code : text) (i : nat) :
  (forall i' c, (i' < i)%nat -> code !! i' = Some c ->
                is_bracket c = true -> is_Some (partner code i')) ->
  exists d, fwd_heap 0 (take i code) = Some d.
Proof.
  intros Hall. destruct (fwd_heap 0 (take i code)) as [d|] eqn:Hh; [by exists d|].
  exfalso. apply fwd_heap_None in Hh as (pre & suf & Hpre & Hh).
  assert (Hcode : code = pre ++ RBRACKET :: (suf ++ drop i code)).
  { rewrite <- (take_drop i code) at 1. rewrite Hpre.
    by rewrite <- app_assoc. }
  assert (Hlt : (length pre < i)%nat).
  { assert (length (take i code) <= i)%nat by (rewrite length_take; lia).
    rewrite Hpre, length_app in H. simpl in H. lia. }
  assert (Hi : code !! length pre = Some RBRACKET).
  { rewrite Hcode. by apply list_lookup_middle. }
  destruct (Hall _ _ Hlt Hi eq_refl) as [q Hq].
  unfold partner in Hq. rewrite Hi in Hq. simpl in Hq.
  rewrite Hcode, take_app_length in Hq.
  by rewrite (close_has_no_partner _ 0 0 Hh) in Hq.
Qed.

(** X6: the position in 'Unmatched bracket at pos' is that of the first
    closing bracket with nothing left to close: the character there is
    []], and the stripped text before it nests properly. *)
Theorem unmatched_position_is_first_orphan (src : text) (i : nat) :
  Brainfuck_init src = Raise (UnmatchedBracket i) ->
  strip src !! i = Some RBRACKET
  /\ nests_properly (take i (strip src)).
Proof.
  intros H. pose proof H as H'.
  apply Brainfuck_init_Raise in H'
    as [[? _]|(Hcount & i0 & c & [= <-] & Hi & Hb & Hp)]; [done|].
  unfold Brainfuck_init in H. rewrite Hcount, Nat.eqb_refl in H. simpl in H.
  destruct (find_jumps _ _ _ _) as [j|e] eqn:Hf; [done|]. injection H as ->.
  assert (Hlen : (0 + length (strip src) <= length (strip src))%nat) by lia.
  pose proof (find_jumps_Raise_first _ _ _ _ _ (fun k _ => lookup_empty k)
                Hlen Hf) as Hfirst.
  destruct (prefix_heap_of_matched (strip src) i) as [d Hd].
  { intros i' c' Hlt. apply Hfirst. lia. }
  destruct (split_at _ _ _ Hi) as [Hcode _].
  unfold is_bracket in Hb. unfold partner in Hp. rewrite Hi in Hp.
  revert Hb Hp Hi Hcode. case_char c; simpl; [| |done]; intros _ Hp Hi Hcode.
  - exfalso. apply scan_fwd_None in Hp as [d' Hd'].
    apply (fwd_heap_shift _ _ _ (S d)) in Hd'. simpl in Hd'.
    assert (Hall : fwd_heap 0 (strip src) = Some (d' + S d)%nat).
    { rewrite Hcode, fwd_heap_app, Hd. simpl. done. }
    apply fwd_heap_count in Hall.
    rewrite !count_strip in Hall by reflexivity. lia.
  - split; [done|]. apply nested_heap.
    destruct d as [|d]; [done|].
    assert (Hpos : (0 < S d)%nat) by lia.
    destruct (close_has_partner _ (S d) 0 Hd Hpos) as [q Hq]. congruence.
Qed.

Lemma unmatched_position_is_first_orphan_witness :
  strip [LBRACKET; 120; RBRACKET; RBRACKET; LBRACKET] !! 2%nat = Some RBRACKET
  /\ nests_properly (take 2 (strip [LBRACKET; 120; RBRACKET; RBRACKET; LBRACKET])).
Proof.
  apply (unmatched_position_is_first_orphan
           [LBRACKET; 120; RBRACKET; RBRACKET; LBRACKET] 2).
  reflexivity.
Defined.

(** ** Translation *)

Lemma r2b_loop_cons (t : char) (rest out : text) :
  r2b_loop (t :: rest) 0 out
  = match head_lookup rep_operators operators t with
    | Some (op, n) => r2b_loop (drop n rest) 0 (out ++ [op])
    | None => r2b_loop rest 0 out
    end.
Proof.
  rewrite r2b_loop_equation_2. cbn -[Z.eqb r2b_loop].
  repeat match goal with
         | |- context [?h =? t] =>
             destruct (Z.eqb_spec h t) as [<-|?]; [reflexivity|]
         end.
  reflexivity.
Qed.

Lemma head_lookup_operator (t op : char) (n : nat) :
  head_lookup rep_operators operators t = Some (op, n) ->
  is_operator op = true /\ is_token_head t = true.
Proof.
  unfold is_token_head. cbn -[Z.eqb].
  repeat match goal with
         | |- context [?h =? t] =>
             destruct (Z.eqb_spec h t) as [<-|?];
             [by intros [= <- <-]|]
         end.
  done.
Qed.

Lemma head_lookup_None (t : char) :
  head_lookup rep_operators operators t = None <-> is_token_head t = false.
Proof.
  unfold is_token_head. cbn -[Z.eqb].
  repeat match goal with
         | |- context [?h =? t] =>
             destruct (Z.eqb_spec h t) as [<-|?]; [done|]
         end.
  done.
Qed.

Lemma r2b_loop_total (n : nat) (s : text) :
  (length s <= n)%nat ->
  exists o, Forall (fun c => is_operator c = true) o
            /\ (length o <= length s)%nat
            /\ forall out, r2b_loop s 0 out = Ok (out ++ o).
Proof.
  revert s. induction n as [|n IH]; intros s Hn.
  - destruct s; [|simpl in Hn; lia]. exists []. split; [done|]. split; [done|].
    intros out. rewrite r2b_loop_equation_1. by rewrite app_nil_r.
  - destruct s as [|t rest].
    + exists []. split; [done|]. split; [done|].
      intros out. rewrite r2b_loop_equation_1. by rewrite app_nil_r.
    + simpl in Hn.
      destruct (head_lookup rep_operators operators t) as [[op k]|] eqn:Hh.
      * destruct (IH (drop k rest)) as (o & Ho & Hlen & Hr).
        { rewrite length_drop. lia. }
        exists (op :: o). split.
        { constructor; [|done]. by apply head_lookup_operator in Hh as [? _]. }
        split. { rewrite length_drop in Hlen. simpl. lia. }
        intros out. rewrite r2b_loop_cons, Hh, Hr. by rewrite <- app_assoc.
      * destruct (IH rest) as (o & Ho & Hlen & Hr); [lia|].
        exists o. split; [done|]. split; [simpl; lia|].
        intros out. by rewrite r2b_loop_cons, Hh, Hr.
Qed.

Lemma r2b_Ok (s : text) :
  exists o, r2b s = Ok o /\ Forall (fun c => is_operator c = true) o
            /\ (length o <= length s)%nat.
Proof.
  destruct (r2b_loop_total (length s) s) as (o & Ho & Hlen & Hr); [done|].
  exists o. split; [|done]. unfold r2b. by rewrite Hr.
Qed.

Lemma r2b_loop_out (s out : text) (o : text) :
  r2b s = Ok o -> r2b_loop s 0 out = Ok (out ++ o).
Proof.
  destruct (r2b_loop_total (length s) s) as (o' & _ & _ & Hr); [done|].
  unfold r2b. rewrite !Hr. by intros [= <-].
Qed.

(** X7: with the token table of the class, [_r2b] never raises; its
    result holds operator characters only and is no longer than its
    input. *)
Theorem r2b_total (s : text) :
  exists o, r2b s = Ok o
            /\ Forall (fun c => is_operator c = true) o
            /\ (length o <= length s)%nat.
Proof. apply r2b_Ok. Qed.

(** X8: [_r2b] emits an operator as soon as it reads the first character
    of that operator's token, and skips as many characters as the token
    has left without looking at them. *)
Theorem r2b_commits_on_first_character
    (k : nat) (h : char) (tl : text) (op : char) (rest : text) :
  rep_operators !! k = Some (h :: tl) ->
  operators !! k = Some op ->
  exists o, r2b (drop (length tl) rest) = Ok o
            /\ r2b (h :: rest) = Ok (op :: o).
Proof.
  intros Hk Hop.
  assert (Hh : head_lookup rep_operators operators h = Some (op, length tl)).
  { do 8 (destruct k as [|k];
          [injection Hk as <- <-; injection Hop as <-; reflexivity|]).
    done. }
  destruct (r2b_Ok (drop (length tl) rest)) as (o & Ho & _).
  exists o. split; [done|].
  unfold r2b. rewrite r2b_loop_cons, Hh. by rewrite (r2b_loop_out _ _ o).
Qed.

Lemma r2b_commits_on_first_character_witness :
  exists o, r2b (drop 2 [1; 2; 12392]) = Ok o
            /\ r2b (12356 :: [1; 2; 12392]) = Ok (PLUS :: o).
Proof.
  apply (r2b_commits_on_first_character 0 12356 [12396; 12356] PLUS [1; 2; 12392]);
    reflexivity.
Defined.

Lemma r2b_no_heads (s : text) :
  Forall (fun c => is_token_head c = false) s -> r2b s = Ok [].
Proof.
  unfold r2b. induction 1 as [|t s Ht _ IH]; simpl.
  - by rewrite r2b_loop_equation_1.
  - apply head_lookup_None in Ht. by rewrite r2b_loop_cons, Ht.
Qed.

(** X9: characters that start no token are dropped by [_r2b]. *)
Theorem r2b_skips_noise (noise s : text) :
  Forall (fun c => is_token_head c = false) noise ->
  r2b (noise ++ s) = r2b s.
Proof.
  unfold r2b. induction 1 as [|t n Ht _ IH]; simpl; [done|].
  apply head_lookup_None in Ht. by rewrite r2b_loop_cons, Ht.
Qed.

Lemma r2b_skips_noise_witness :
  r2b ([32; 43; 10] ++ [12373; 12435]) = r2b [12373; 12435].
Proof.
  apply (r2b_skips_noise [32; 43; 10] [12373; 12435]).
  repeat constructor.
Defined.

Lemma operator_not_head (c : char) :
  is_operator c = true -> is_token_head c = false.
Proof.
  intros H.
  by destruct (is_operator_cases c H) as [->|[->|[->|[->|[->|[->|[->| ->]]]]]]].
Qed.

(** X10: text written in the canonical operators translates to the
    empty text: [_r2b] does not pass Brainfuck source through. *)
Theorem r2b_of_canonical_text_is_empty (s : text) :
  Forall (fun c => is_operator c = true) s -> r2b s = Ok [].
Proof.
  intros H. apply r2b_no_heads.
  eapply Forall_impl; [exact H|]. apply operator_not_head.
Qed.

Lemma r2b_of_canonical_text_is_empty_witness :
  r2b [PLUS; LBRACKET; MINUS; RBRACKET; DOT] = Ok [].
Proof.
  apply (r2b_of_canonical_text_is_empty [PLUS; LBRACKET; MINUS; RBRACKET; DOT]).
  repeat constructor.
Defined.

Lemma b2r_Ok (src : text) : b2r src = Ok (concat (map token_of (strip src))).
Proof. unfold b2r. by rewrite b2r_loop_spec. Qed.

(** X11: [_b2r] never raises, distributes over concatenation, and gives
    the same result with or without the noise characters. *)
Theorem b2r_app (a b : text) :
  exists sa sb, b2r a = Ok sa /\ b2r b = Ok sb
                /\ b2r (a ++ b) = Ok (sa ++ sb)
                /\ b2r (strip a) = Ok sa.
Proof.
  exists (concat (map token_of (strip a))), (concat (map token_of (strip b))).
  rewrite !b2r_Ok, strip_app, map_app, concat_app, strip_strip. done.
Qed.

(** X12: a text produced by [_b2r] followed by any text translates back
    to the operators it came from followed by the translation of the
    rest. *)
Theorem r2b_after_tokens (src surface rest : text) :
  b2r src = Ok surface ->
  exists o, r2b rest = Ok o /\ r2b (surface ++ rest) = Ok (strip src ++ o).
Proof.
  rewrite b2r_Ok. intros [= <-].
  destruct (r2b_Ok rest) as (o & Ho & _). exists o. split; [done|].
  unfold r2b. pose proof (strip_all_operators src) as Hall.
  assert (Hgen : forall out,
             r2b_loop (concat (map token_of (strip src)) ++ rest) 0 out
             = Ok (out ++ strip src ++ o)).
  { induction Hall as [|c ops Hc _ IH]; intros out; simpl.
    - by apply r2b_loop_out.
    - rewrite <- app_assoc, r2b_loop_token by done. rewrite IH.
      by rewrite <- app_assoc. }
  apply (Hgen []).
Qed.

Lemma r2b_after_tokens_witness :
  exists o, r2b [12356; 7] = Ok o
    /\ r2b ([12373; 12435; 12400; 12363] ++ [12356; 7])
       = Ok (strip [LBRACKET; 120; RBRACKET] ++ o).
Proof.
  apply (r2b_after_tokens [LBRACKET; 120; RBRACKET]
           [12373; 12435; 12400; 12363] [12356; 7]).
  reflexivity.
Defined.

(** X13: constructing a TripleHorseDeer program from the [_b2r]
    translation of a text gives what constructing a Brainfuck program from
    the text itself gives, program or error. *)
Theorem TripleHorseDeer_init_of_b2r (src surface : text) :
  b2r src = Ok surface ->
  TripleHorseDeer_init surface = Brainfuck_init src.
Proof.
  intros Hb. destruct (r2b_b2r_strip src) as (s' & Hb' & Hr).
  assert (s' = surface) as -> by congruence.
  unfold TripleHorseDeer_init. rewrite Hr. simpl. apply Brainfuck_init_strip.
Qed.

Lemma TripleHorseDeer_init_of_b2r_witness :
  TripleHorseDeer_init [12373; 12435; 12400; 12363]
  = Brainfuck_init [LBRACKET; 120; RBRACKET].
Proof.
  apply (TripleHorseDeer_init_of_b2r [LBRACKET; 120; RBRACKET]). reflexivity.
Defined.

(** X14: a failing TripleHorseDeer construction raises a
    [BrainfuckError] with [errnr] 1 or 4: the translation itself never
    fails. *)
Theorem TripleHorseDeer_init_errors (src : text) (e : error) :
  TripleHorseDeer_init src = Raise e ->
  errnr e = Some 1%nat \/ errnr e = Some 4%nat.
Proof.
  unfold TripleHorseDeer_init.
  destruct (r2b_Ok src) as (o & -> & _). simpl.
  intros [[-> _]|(_ & i & c & -> & _)]%Brainfuck_init_Raise; auto.
Qed.

Lemma TripleHorseDeer_init_errors_witness :
  errnr (UnmatchedBracket 0) = Some 1%nat \/ errnr (UnmatchedBracket 0) = Some 4%nat.
Proof.
  apply (TripleHorseDeer_init_errors [12400; 12363; 12373; 12435]).
  reflexivity.
Defined.

(** ** Runs *)

Lemma init_jumps_in_range (src : text) (p : program) (i : nat) (c : char) :
  Brainfuck_init src = Ok p ->
  code p !! i = Some c -> is_bracket c = true ->
  exists q, jumps p !! i = Some q /\ (q < c_len p)%nat.
Proof.
  intros Hinit Hi Hb.
  destruct (Brainfuck_init_Ok _ _ Hinit) as (Hcode & Hlen & _ & Hj).
  rewrite Hcode in Hi. rewrite Hlen.
  assert (Hn : nested 0 (strip src) = true).
  { rewrite nested_strip. by apply (init_Ok_nested _ p). }
  destruct (nested_has_partner _ _ _ Hn Hi Hb) as [q Hq].
  exists q. rewrite Hj. split; [done|].
  apply partner_symmetric, partner_is_bracket in Hq as (c' & Hc' & _).
  by apply lookup_lt_Some in Hc'.
Qed.

Lemma step_KeyError {np : numpy} (p : program) (s : state) :
  step np p s = Raise KeyError ->
  exists c, code p !! ip s = Some c /\ is_bracket c = true
            /\ jumps p !! ip s = None.
Proof.
  unfold step, item. destruct (code p !! ip s) as [c|]; simpl; [|done].
  destruct (exec_instr np p c s) as [s1|e1] eqn:Hex; simpl; [done|].
  intros [= ->]. exists c. split; [done|]. revert Hex.
  exec_cases c; intros H; inversion H; subst;
    repeat match goal with
      | H : getitem _ _ = Raise _ |- _ => apply getitem_Raise in H
      | H : setitem _ _ _ = Raise _ |- _ => apply setitem_Raise in H
      | H : setitem_int _ _ _ _ = Raise _ |- _ =>
          apply setitem_int_Raise in H as [?|[? ?]]
      end; try discriminate; done.
Qed.

Lemma step_ip_bound {np : numpy} (src : text) (p : program) (s s' : state) :
  Brainfuck_init src = Ok p ->
  (ip s < c_len p)%nat -> step np p s = Ok s' -> (ip s' <= c_len p)%nat.
Proof.
  intros Hinit Hip Hs.
  apply step_Ok in Hs as (c & s1 & Hc & Hex & ->). simpl.
  pose proof (exec_instr_ip _ _ _ _ Hc Hex) as H.
  destruct (jumps_at p s) eqn:Hj.
  - destruct H as (q & Hq & ->).
    assert (Hb : is_bracket c = true).
    { unfold jumps_at in Hj. rewrite Hc in Hj.
      destruct (getitem _ _); [|done]. unfold is_bracket.
      destruct (c =? LBRACKET), (c =? RBRACKET); simpl in *; done. }
    destruct (init_jumps_in_range _ _ _ _ Hinit Hc Hb) as (q' & Hq' & Hlt).
    assert (q' = q) as -> by congruence. lia.
  - rewrite H. lia.
Qed.

Lemma loop_validated {np : numpy} (src : text) (p : program) (b : Z) (s : state) (o : outcome) :
  Brainfuck_init src = Ok p ->
  loop np p b s o -> (ip s <= c_len p)%nat ->
  match o with
  | Halted s' => ip s' = c_len p
  | Raised e s' =>
      (e = IndexError \/ e = MaxInstrExceeded
       \/ (e = OverflowError /\ np = NumPy2 /\ code p !! ip s' = Some COMMA))
      /\ (ip s' < c_len p)%nat
  end.
Proof.
  intros Hinit.
  induction 1 as [s Hip|s Hip Hb|s e Hip Hb Hs|s s1 o Hip Hb Hs _ IH]; intros Hle.
  - lia.
  - auto.
  - split; [|done]. simpl.
    destruct (step_Raise_kind _ _ _ Hs) as [->|[->|(-> & -> & Hc)]]; auto.
    apply step_KeyError in Hs as (c & Hc & Hbr & Hnone).
    destruct (init_jumps_in_range _ _ _ _ Hinit Hc Hbr) as (q & Hq & _).
    congruence.
  - apply IH. by eapply (step_ip_bound src p s).
Qed.

(** X15: a run of a constructed program never fails on the jump table.
    It ends with the instruction pointer at the end of the program (also
    when the final decoding fails), or inside the program with
    [IndexError], with the budget's error or, with NumPy 2 and at an input
    operator only, with [OverflowError]. *)
Theorem validated_run_outcomes {np : numpy} (src : text) (p : program) (mem_size : nat)
    (max_instr : Z) (inp : list read_event) (out : list text) (o : outcome) :
  Brainfuck_init src = Ok p ->
  run np p mem_size max_instr inp out o ->
  match o with
  | Halted s => ip s = c_len p
  | Raised e s =>
      (e = IndexError /\ (ip s < c_len p)%nat)
      \/ (e = MaxInstrExceeded /\ (ip s < c_len p)%nat)
      \/ (e = OverflowError /\ np = NumPy2 /\ code p !! ip s = Some COMMA
          /\ (ip s < c_len p)%nat)
      \/ (e = UnicodeDecodeError /\ ip s = c_len p)
  end.
Proof.
  intros Hinit [s Hl|e s Hl];
    apply (loop_validated _ _ _ _ _ Hinit) in Hl; try (simpl; lia).
  - unfold flush. destruct (utf8_decode _); simpl; auto 10.
  - destruct Hl as [[->|[->|(-> & -> & Hc)]] Hlt]; auto 10.
Qed.

Lemma validated_run_outcomes_witness :
  ip (mkState 2 0 [65; 0] 2 [65] [] [[65]]) = c_len (mkProgram [COMMA; DOT] ∅ 2).
Proof.
  apply (validated_run_outcomes (np := NumPy2) [COMMA; 32; DOT] (mkProgram [COMMA; DOT] ∅ 2)
           2 (-1) [ReadChar 65] []
           (Halted (mkState 2 0 [65; 0] 2 [65] [] [[65]]))).
  - reflexivity.
  - apply (run_fuel_sound (np := NumPy2) 3). reflexivity.
Defined.

Lemma getitem_bytes (m : list Z) (d v : Z) :
  bytes m -> getitem m d = Ok v -> 0 <= v < 256.
Proof.
  unfold getitem, item. intros Hm.
  destruct (np_index _ _) as [k|]; [|done].
  destruct (m !! k) as [v'|] eqn:Hk; [|done]. intros [= <-].
  unfold bytes in Hm. rewrite Forall_lookup in Hm. by apply (Hm k).
Qed.

Lemma setitem_bytes (m m' : list Z) (d v : Z) :
  bytes m -> setitem m d v = Ok m' -> bytes m' /\ length m' = length m.
Proof.
  intros Hm (k & _ & ->)%setitem_Ok. split; [|by rewrite length_insert].
  apply Forall_insert; [done|]. by apply Z.mod_pos_bound.
Qed.

Lemma setitem_int_bytes (np : numpy) (m m' : list Z) (d v : Z) :
  bytes m -> setitem_int np m d v = Ok m' -> bytes m' /\ length m' = length m.
Proof.
  intros Hm (k & _ & ->)%setitem_int_Ok. split; [|by rewrite length_insert].
  apply Forall_insert; [done|]. by apply Z.mod_pos_bound.
Qed.

Lemma exec_instr_bytes {np : numpy} (p : program) (c : char) (s s1 : state) :
  bytes (mem s) -> bytes (buf_out s) ->
  exec_instr np p c s = Ok s1 ->
  bytes (mem s1) /\ bytes (buf_out s1) /\ length (mem s1) = length (mem s).
Proof.
  intros Hm Hb. exec_cases c; intros [= <-]; simpl; try done.
  all: repeat match goal with
         | H : setitem _ _ _ = Ok _ |- _ =>
             apply (setitem_bytes _ _ _ _ Hm) in H as [? ?]
         | H : setitem_int _ _ _ _ = Ok _ |- _ =>
             apply (setitem_int_bytes _ _ _ _ _ Hm) in H as [? ?]
         end; try done.
  split; [done|]. split; [|done].
  apply Forall_app. split; [done|]. constructor; [|done].
  by apply (getitem_bytes (mem s) (dp s)).
Qed.

Lemma loop_bytes {np : numpy} (p : program) (b : Z) (s : state) (o : outcome) :
  loop np p b s o ->
  bytes (mem s) -> bytes (buf_out s) ->
  bytes (mem (final o)) /\ bytes (buf_out (final o))
  /\ length (mem (final o)) = length (mem s).
Proof.
  induction 1 as [s Hip|s Hip Hb|s e Hip Hb Hs|s s1 o Hip Hb Hs _ IH];
    intros Hm Hbuf; try done.
  apply step_Ok in Hs as (c & s2 & _ & Hex & ->).
  apply (exec_instr_bytes _ _ _ _ Hm Hbuf) in Hex as (Hm' & Hb' & Hlen).
  destruct IH as (? & ? & ?); try done. simpl in *. by rewrite <- Hlen.
Qed.

Lemma flush_final (s : state) :
  mem (final (flush s)) = mem s /\ buf_out (final (flush s)) = buf_out s
  /\ icnt (final (flush s)) = icnt s /\ ip (final (flush s)) = ip s.
Proof. unfold flush. by destruct (utf8_decode _). Qed.

Lemma run_bytes {np : numpy} (p : program) (mem_size : nat) (max_instr : Z)
    (inp : list read_event) (out : list text) (o : outcome) :
  run np p mem_size max_instr inp out o ->
  length (mem (final o)) = mem_size
  /\ Forall (fun v => 0 <= v < 256) (mem (final o))
  /\ Forall (fun v => 0 <= v < 256) (buf_out (final o)).
Proof.
  intros Hr.
  assert (H0 : bytes (mem (init_state mem_size inp out))).
  { apply Forall_replicate. lia. }
  assert (Hl : exists o', loop np p max_instr (init_state mem_size inp out) o'
                 /\ mem (final o) = mem (final o')
                 /\ buf_out (final o) = buf_out (final o')).
  { destruct Hr as [s Hl|e s Hl]; eexists; (split; [exact Hl|]); simpl;
      [|done]. destruct (flush_final s) as (-> & -> & _). done. }
  destruct Hl as (o' & Hl & -> & ->).
  destruct (loop_bytes _ _ _ _ Hl H0) as (Hm & Hb & Hlen); [constructor|].
  split; [|done]. rewrite Hlen. simpl. apply length_replicate.
Qed.

(** X16: however a run ends, the tape still has [mem_size] cells, and
    every cell and every byte of the output buffer lies in [0, 256). *)
Theorem tape_stays_bytes {np : numpy} (p : program) (mem_size : nat) (max_instr : Z)
    (inp : list read_event) (out : list text) (o : outcome) :
  run np p mem_size max_instr inp out o ->
  length (mem (final o)) = mem_size
  /\ Forall (fun v => 0 <= v < 256) (mem (final o))
  /\ Forall (fun v => 0 <= v < 256) (buf_out (final o)).
Proof. apply run_bytes. Qed.

Lemma loop_Raised_kind {np : numpy} (p : program) (b : Z) (s s' : state) (e : error) :
  loop np p b s (Raised e s') ->
  e = IndexError \/ e = KeyError \/ e = MaxInstrExceeded \/ e = OverflowError.
Proof.
  intros H. remember (Raised e s') as o eqn:Ho.
  induction H as [s1 Hip|s1 Hip Hb|s1 e1 Hip Hb Hs|s1 s2 o Hip Hb Hs _ IH];
    try done; auto.
  - injection Ho as <- _. auto.
  - injection Ho as <- _. apply step_Raise_kind in Hs as [?|[?|[? _]]]; auto.
Qed.

Lemma tape_stays_bytes_witness :
  length (mem (final (Halted (mkState 2 (-1) [0; 0; 255] 2 [] [] [[]])))) = 3%nat
  /\ Forall (fun v => 0 <= v < 256)
       (mem (final (Halted (mkState 2 (-1) [0; 0; 255] 2 [] [] [[]]))))
  /\ Forall (fun v => 0 <= v < 256)
       (buf_out (final (Halted (mkState 2 (-1) [0; 0; 255] 2 [] [] [[]])))).
Proof.
  apply (tape_stays_bytes (np := NumPy2) (mkProgram [LT; MINUS] ∅ 2) 3 (-1) [] []).
  apply (run_fuel_sound (np := NumPy2) 3). reflexivity.
Defined.




(** X18: the budget's error is raised only for a non-negative
    [max_instr], inside the program, and with the instruction counter at
    [max_instr + 1]. *)
Theorem budget_stop_point {np : numpy} (p : program) (mem_size : nat) (max_instr : Z)
    (inp : list read_event) (out : list text) (s : state) :
  run np p mem_size max_instr inp out (Raised MaxInstrExceeded s) ->
  0 <= max_instr /\ icnt s = max_instr + 1 /\ (ip s < c_len p)%nat.
Proof.
  intros H. pose proof (budget_stops_after _ _ _ _ _ _ H) as Hi.
  inversion H as [s0 Hl Hf|e s0 Hl]; subst.
  - unfold flush in Hf. by destruct (utf8_decode _).
  - pose proof (budget_raised_over _ _ _ _ Hl s eq_refl) as [H0 _].
    split; [done|]. split; [done|].
    clear -Hl. remember (Raised MaxInstrExceeded s) as o eqn:Ho.
    induction Hl as [s1 Hip|s1 Hip Hb|s1 e Hip Hb Hs|s1 s2 o Hip Hb Hs _ IH];
      try done; try (by injection Ho as <-); auto.
    injection Ho as -> _. by apply step_Raise_kind in Hs as [?|[?|[? _]]].
Qed.

Lemma steps_counted {np : numpy} (p : program) (b : Z) (n : nat) (s : state) :
  (forall i c, code p !! i = Some c -> is_bracket c = false) ->
  c_len p = length (code p) ->
  (ip s + n = c_len p)%nat ->
  exists o, loop np p b s o /\ icnt (final o) <= icnt s + Z.of_nat n
            /\ (ip s <= ip (final o))%nat.
Proof.
  intros Hnb Hlen. revert s. induction n as [|n IH]; intros s Hn.
  - exists (Halted s). split; [apply loop_exit; lia|]. simpl. lia.
  - destruct (over_budget b s) eqn:Hb.
    { exists (Raised MaxInstrExceeded s). split; [apply loop_budget; [lia|done]|].
      simpl. lia. }
    destruct (step np p s) as [s'|e] eqn:Hs.
    + assert (Hip : ip s' = S (ip s)).
      { pose proof Hs as Hs'.
        apply step_Ok in Hs' as (c & s1 & Hc & Hex & ->). simpl.
        pose proof (exec_instr_ip _ _ _ _ Hc Hex) as H.
        assert (Hj : jumps_at p s = false).
        { unfold jumps_at. rewrite Hc. destruct (getitem _ _); [|done].
          pose proof (Hnb _ _ Hc) as Hbr. unfold is_bracket in Hbr.
          apply orb_false_iff in Hbr as [-> ->]. done. }
        rewrite Hj in H. rewrite H. lia. }
      destruct (IH s') as (o & Hl & Hi & Hle); [lia|].
      exists o. split; [eapply loop_step; eauto; lia|].
      rewrite (step_icnt _ _ _ Hs) in Hi. lia.
    + exists (Raised e (step_failed_state p s)).
      split; [apply loop_raise; auto; lia|]. simpl. lia.
Qed.

(** X19: a text without brackets always constructs, and its run ends,
    normally or with an error, after at most as many steps as the program
    has operators. *)
Theorem loop_free_program_terminates {np : numpy} (src : text) (mem_size : nat)
    (max_instr : Z) (inp : list read_event) (out : list text) :
  count src LBRACKET = 0%nat -> count src RBRACKET = 0%nat ->
  exists p o, Brainfuck_init src = Ok p
    /\ run np p mem_size max_instr inp out o
    /\ icnt (final o) <= Z.of_nat (c_len p).
Proof.
  intros HL HR.
  assert (Hnb : forall i c, strip src !! i = Some c -> is_bracket c = false).
  { intros i c Hi. apply list_elem_of_lookup_2 in Hi.
    rewrite <- (count_strip src LBRACKET) in HL by reflexivity.
    rewrite <- (count_strip src RBRACKET) in HR by reflexivity.
    revert HL HR Hi. generalize (strip src). intros l.
    induction l as [|x l IHl]; simpl; [by intros _ _ ?%elem_of_nil|].
    unfold is_bracket.
    destruct (Z.eqb_spec x LBRACKET); [done|].
    destruct (Z.eqb_spec x RBRACKET); [done|].
    intros H1 H2 [->|Hin]%elem_of_cons; [|by apply IHl].
    destruct (Z.eqb_spec x LBRACKET); [done|].
    by destruct (Z.eqb_spec x RBRACKET). }
  assert (Hn : nested 0 (strip src) = true).
  { clear -Hnb. assert (H : forall d, nested d (strip src) = (d =? 0)%nat).
    { induction (strip src) as [|x l IHl]; intros d; [done|]. simpl.
      pose proof (Hnb 0%nat x eq_refl) as Hx. unfold is_bracket in Hx.
      apply orb_false_iff in Hx as [-> ->]. apply IHl.
      intros i c Hi. by apply (Hnb (S i)). }
    by rewrite H. }
  rewrite nested_strip in Hn.
  destruct (nested_init_Ok _ Hn) as [p Hp].
  destruct (Brainfuck_init_Ok _ _ Hp) as (Hcode & Hlen & _).
  destruct (steps_counted (np := np) p max_instr (c_len p) (init_state mem_size inp out))
    as (o & Hl & Hi & _); [by rewrite Hcode|by rewrite Hcode| done |].
  simpl in Hi.
  destruct o as [s|e s].
  - exists p, (flush s). split; [done|]. split; [by apply run_done|].
    destruct (flush_final s) as (_ & _ & -> & _). simpl in Hi. lia.
  - exists p, (Raised e s). split; [done|]. split; [by apply run_raised|done].
Qed.

Lemma loop_free_program_terminates_witness :
  exists p o, Brainfuck_init [PLUS; GT; COMMA; DOT] = Ok p
    /\ run NumPy2 p 2 (-1) [] [] o
    /\ icnt (final o) <= Z.of_nat (c_len p).
Proof.
  apply (loop_free_program_terminates (np := NumPy2) [PLUS; GT; COMMA; DOT] 2 (-1) [] []);
    reflexivity.
Defined.

Lemma budget_stop_point_witness :
  let p := mkProgram [PLUS; LBRACKET; RBRACKET]
             {[1%nat := 2%nat; 2%nat := 1%nat]} 3 in
  let s := mkState 2 0 [1] 4 [] [] [] in
  0 <= 3 /\ icnt s = 3 + 1 /\ (ip s < c_len p)%nat.
Proof.
  intros p s. apply (budget_stop_point (np := NumPy2) p 1 3 [] [] s).
  apply (run_fuel_sound (np := NumPy2) 6). reflexivity.
Defined.

Lemma utf8_decode_ascii (bs : list Z) :
  Forall (fun v => 0 <= v < 128) bs -> utf8_decode bs = Some bs.
Proof.
  induction 1 as [|b bs Hb _ IH]; [done|]. simpl.
  unfold in_range at 1.
  destruct (Z.leb_spec 0 b), (Z.leb_spec b 127); simpl; try lia.
  by rewrite IH.
Qed.

Lemma run_Halted {np : numpy} (p : program) (mem_size : nat) (b : Z)
    (inp : list read_event) (out : list text) (s' : state) :
  run np p mem_size b inp out (Halted s') ->
  exists s t, loop np p b (init_state mem_size inp out) (Halted s)
    /\ utf8_decode (buf_out s) = Some t
    /\ s' = set_output s (out ++ [t]).
Proof.
  intros H. inversion H as [s Hl Hf|]; subst.
  pose proof (loop_output _ _ _ _ Hl) as Ho. simpl in Ho.
  unfold flush in Hf. destruct (utf8_decode (buf_out s)) as [t|] eqn:Ht; [|done].
  injection Hf as <-. exists s, t. by rewrite Ho.
Qed.

(** X20: when every buffered byte is below 128, the final decoding
    cannot fail, and a run that reaches the end writes the buffer itself,
    as one string. *)
Theorem ascii_output_is_written_as_is {np : numpy} (p : program) (mem_size : nat)
    (max_instr : Z) (inp : list read_event) (out : list text) (o : outcome) :
  run np p mem_size max_instr inp out o ->
  Forall (fun v => v < 128) (buf_out (final o)) ->
  match o with
  | Halted s => output s = out ++ [buf_out s]
  | Raised e s => e <> UnicodeDecodeError
  end.
Proof.
  intros Hr Hascii.
  destruct (run_bytes _ _ _ _ _ _ Hr) as (_ & _ & Hb).
  assert (Ha : Forall (fun v => 0 <= v < 128) (buf_out (final o))).
  { rewrite Forall_forall in *. intros v Hv.
    specialize (Hascii v Hv). specialize (Hb v Hv). simpl in *. lia. }
  destruct Hr as [s Hl|e s Hl].
  - destruct (flush_final s) as (_ & Hbuf & _). rewrite Hbuf in Ha.
    pose proof (loop_output _ _ _ _ Hl) as Ho. simpl in Ho.
    unfold flush. rewrite (utf8_decode_ascii _ Ha). simpl. by rewrite Ho.
  - intros ->. by apply loop_Raised_kind in Hl as [?|[?|[?|?]]].
Qed.

Lemma ascii_output_is_written_as_is_witness :
  output (mkState 2 0 [65; 0] 2 [65] [] [[65]]) = [] ++ [[65]].
Proof.
  apply (ascii_output_is_written_as_is (np := NumPy2) (mkProgram [COMMA; DOT] ∅ 2) 2 (-1)
           [ReadChar 65] [] (Halted (mkState 2 0 [65; 0] 2 [65] [] [[65]]))).
  - apply (run_fuel_sound (np := NumPy2) 3). reflexivity.
  - repeat constructor.
Defined.

(** X21: a second run on the same object reads what the first left of
    the input and writes after what the first wrote, so the text read back
    from the sink after the second run is that of the first run followed by
    the second output. *)
Theorem second_run_appends_output {np : numpy} (p : program) (n n' : nat) (b b' : Z)
    (inp : list read_event) (out : list text) (s1 s2 : state) :
  run np p n b inp out (Halted s1) ->
  run np p n' b' (input s1) (output s1) (Halted s2) ->
  exists t1 t2,
    utf8_decode (buf_out s1) = Some t1 /\ utf8_decode (buf_out s2) = Some t2
    /\ output s2 = out ++ [t1; t2]
    /\ returned s1 = concat out ++ t1
    /\ returned s2 = returned s1 ++ t2.
Proof.
  intros (s & t1 & _ & Ht1 & ->)%run_Halted (s' & t2 & _ & Ht2 & ->)%run_Halted.
  simpl in *. exists t1, t2. unfold returned. simpl.
  rewrite <- app_assoc. simpl.
  rewrite !concat_app. simpl. rewrite !app_nil_r.
  repeat split; try done. by rewrite app_assoc.
Qed.

Lemma second_run_appends_output_witness :
  exists t1 t2,
    utf8_decode [65] = Some t1 /\ utf8_decode [65] = Some t2
    /\ output (mkState 2 0 [65] 2 [65] [] [[65]; [65]]) = [] ++ [t1; t2]
    /\ returned (mkState 2 0 [65] 2 [65] [] [[65]]) = concat [] ++ t1
    /\ returned (mkState 2 0 [65] 2 [65] [] [[65]; [65]])
       = returned (mkState 2 0 [65] 2 [65] [] [[65]]) ++ t2.
Proof.
  apply (second_run_appends_output (np := NumPy2) (mkProgram [COMMA; DOT] ∅ 2) 1 1 (-1) (-1)
           [ReadChar 65; ReadChar 65] []
           (mkState 2 0 [65] 2 [65] [ReadChar 65] [[65]])
           (mkState 2 0 [65] 2 [65] [] [[65]; [65]])).
  - apply (run_fuel_sound (np := NumPy2) 3). reflexivity.
  - apply (run_fuel_sound (np := NumPy2) 3). reflexivity.
Defined.

(** X22: on a cell holding a byte, [+] followed by [-], or [-] followed
    by [+], leaves the tape as it was. *)
Theorem increment_decrement_cancel {np : numpy} (p : program) (s : state) (k : nat) (v : Z)
    (c1 c2 : char) :
  (c1 = PLUS /\ c2 = MINUS) \/ (c1 = MINUS /\ c2 = PLUS) ->
  code p !! ip s = Some c1 -> code p !! S (ip s) = Some c2 ->
  np_index (length (mem s)) (dp s) = Some k ->
  mem s !! k = Some v -> 0 <= v < 256 ->
  steps np 2 p s
  = Ok (mkState (S (S (ip s))) (dp s) (mem s) (icnt s + 2)
          (buf_out s) (input s) (output s)).
Proof.
  intros Hc H1 H2 Hk Hv Hr.
  assert (Hlt : (k < length (mem s))%nat) by by apply np_index_lt in Hk.
  destruct Hc as [[-> ->]|[-> ->]]; simpl.
  - rewrite (step_plus p s k v) by done. simpl.
    rewrite (step_minus _ _ k ((v + 1) mod 256)); simpl;
      [|done|by rewrite length_insert|by apply list_lookup_insert_eq].
    rewrite list_insert_insert_eq, Zminus_mod_idemp_l.
    replace (v + 1 - 1) with v by lia. rewrite Z.mod_small by done.
    rewrite list_insert_id by done. do 2 f_equal. lia.
  - rewrite (step_minus p s k v) by done. simpl.
    rewrite (step_plus _ _ k ((v - 1) mod 256)); simpl;
      [|done|by rewrite length_insert|by apply list_lookup_insert_eq].
    rewrite list_insert_insert_eq, Zplus_mod_idemp_l.
    replace (v - 1 + 1) with v by lia. rewrite Z.mod_small by done.
    rewrite list_insert_id by done. do 2 f_equal. lia.
Qed.

Lemma increment_decrement_cancel_witness :
  steps NumPy2 2 (mkProgram [MINUS; PLUS] ∅ 2) (init_state 2 [] [])
  = Ok (mkState 2 0 [0; 0] 2 [] [] []).
Proof.
  apply (increment_decrement_cancel (np := NumPy2) (mkProgram [MINUS; PLUS] ∅ 2)
           (init_state 2 [] []) 0 0 MINUS PLUS);
    [by right|reflexivity|reflexivity|reflexivity|reflexivity|lia].
Defined.

(** X23: only [,] consumes input, only [>] and [<] move the data
    pointer, only [+], [-] and [,] change the tape, and only [.] extends
    the output buffer. *)
Theorem step_frame {np : numpy} (p : program) (s s' : state) (c : char) :
  code p !! ip s = Some c -> step np p s = Ok s' ->
  (c <> COMMA -> input s' = input s)
  /\ (c <> GT -> c <> LT -> dp s' = dp s)
  /\ (c <> PLUS -> c <> MINUS -> c <> COMMA -> mem s' = mem s)
  /\ (c <> DOT -> buf_out s' = buf_out s).
Proof.
  intros Hc Hs. rewrite (step_at _ _ _ Hc) in Hs.
  apply bind_Ok in Hs as (s1 & Hex & [= <-]). simpl. revert Hex.
  exec_cases c; intros [= <-]; simpl; by repeat split.
Qed.

Lemma step_frame_witness :
  let p := mkProgram [DOT] ∅ 1 in
  let s := init_state 1 [ReadChar 7] [] in
  let s' := mkState 1 0 [0] 1 [0] [ReadChar 7] [] in
  (DOT <> COMMA -> input s' = input s)
  /\ (DOT <> GT -> DOT <> LT -> dp s' = dp s)
  /\ (DOT <> PLUS -> DOT <> MINUS -> DOT <> COMMA -> mem s' = mem s)
  /\ (DOT <> DOT -> buf_out s' = buf_out s).
Proof.
  intros p s s'. apply (step_frame (np := NumPy2) p s s' DOT); reflexivity.
Defined.


